(** * Global DSA propagation engine (lib/Analysis/DSA/DsaGlobal.cc)

    A shallow embedding of the two whole-program engines of the DSA
    points-to analysis:

    - [CI]: the context-insensitive engine, one shared graph built by a
      bottom-up sweep over the call-graph SCCs;
    - [CS]: the context-sensitive engine, one graph per function, refined by
      a worklist of call sites;
    - [CIPass], [CSPass]: the two LLVM passes, each of which builds its
      analysis anew when it runs.

    Conventions.
    - LLVM objects ([Function], [Instruction], [Value]) are identified by
      their address, a [positive]; a null pointer is [None].
    - The classes the engines drive but do not define (Graph, Cell, Cloner,
      SimulationMapper, LocalAnalysis, BottomUpAnalysis) are an interface,
      [DsaLib]; what the host program answers (call graph, call sites,
      function attributes) is a record, [Program].
    - [assert (e)] evaluates [e] and aborts the run when it is false;
      [LOG (tag, code)] runs [code] when the log tag is enabled.
    - [ufo::Stats::resume/stop] only start and stop a timer and are left out. *)

From stdpp Require Import base option list gmap sets strings.
From Stdlib Require Import NArith.

Set Warnings "-clear-no-such-hyp".

(** ** Host program *)

Definition Value := positive.
Definition Function := positive.
Definition Instruction := positive.
Definition GraphRef := positive.

(** A call-graph node: its function (null for the external nodes) and the
    call instructions of its call records ([CallRecord.first]). *)
Record CallGraphNode := mkCallGraphNode {
  getFunction : option Function;
  callRecords : list Instruction
}.

Record Program := mkProgram {
  (** [for (auto &F : M)] *)
  functions : list Function;
  isDeclaration : Function → bool;
  empty : Function → bool;
  (** [scc_begin (&cg)] ... [isAtEnd ()]: the SCCs in the order of the walk *)
  sccs : list (list CallGraphNode);
  (** [dyn_cast<CallInst> (I)] succeeds and [CI->isInlineAsm ()] *)
  isInlineAsm : Instruction → bool;
  (** [ImmutableCallSite::getCalledFunction] *)
  getCalledFunction : Instruction → option Function;
  (** [DsaCallSite]: callee, caller, actual and formal ranges *)
  getCallee : Instruction → option Function;
  getCaller : Instruction → option Function;
  actuals : Instruction → list Value;
  formals : Instruction → list Value
}.

(** [!fn || fn->isDeclaration () || fn->empty ()] *)
Definition skipped (P : Program) (fn : option Function) : bool :=
  match fn with
  | None => true
  | Some f => isDeclaration P f || empty P f
  end.

(** ** The graph library the engines are written against *)

Record Cell (Node : Type) := mkCell_ { getNode : Node; getOffset : N }.
Arguments mkCell_ {Node} _ _.
Arguments getNode {Node} _.
Arguments getOffset {Node} _.

Class DsaLib := {
  Graph : Type;
  Node : Type;
  Cloner : Type;
  SimulationMapper : Type;
  (** [Graph (m_dl, m_setFactory)] *)
  newGraph : Graph;
  (** [g.import (src, flag)] *)
  import : Graph → Graph → bool → Graph;
  compress : Graph → Graph;
  (** [globals_begin ()] ... [globals_end ()] *)
  globals : Graph → list (Value * Cell Node);
  hasCell : Graph → Value → bool;
  (** [None]: the location has no cell and the call fails fast *)
  getCell : Graph → Value → option (Cell Node);
  (** [g.mkCell (v, Cell ())] *)
  mkCell : Graph → Value → Graph * Cell Node;
  hasRetCell : Graph → Function → bool;
  getRetCell : Graph → Function → option (Cell Node);
  (** [nc.unify (c)] for two cells of the graph *)
  unify : Graph → Cell Node → Cell Node → Graph;
  (** [Cloner C (g)] and [C.clone (n)], [n] a node of the source graph *)
  newCloner : Cloner;
  clone : Cloner → Graph → Graph → Node → Cloner * Graph * Node;
  (** [LocalAnalysis::runOnFunction (fn, g)] *)
  la_runOnFunction : Function → Graph → Graph;
  (** [Graph::computeCalleeCallerMapping (cs, calleeG, callerG, flag, sm)]:
      the returned flag and the mapper it filled *)
  computeCalleeCallerMapping :
    Instruction → Graph → Graph → bool → bool * SimulationMapper;
  isFunction : SimulationMapper → bool;
  isInjective : SimulationMapper → bool;
  (** [BottomUpAnalysis::cloneAndResolveArguments (cs, calleeG, callerG)]:
      the caller graph it leaves *)
  bu_cloneAndResolveArguments : Instruction → Graph → Graph → Graph;
  (** [BottomUpAnalysis::runOnModule (M, graphs)]: the graph map and the
      graphs it leaves, and its callee-caller mappings in iteration order *)
  bu_runOnModule :
    Program → gmap Function GraphRef → gmap GraphRef Graph →
    gmap Function GraphRef * gmap GraphRef Graph *
    list (Instruction * SimulationMapper)
}.

(** ** Runs that may abort *)

Inductive outcome (S A : Type) :=
| Done (a : A) (s : S)   (** normal completion *)
| Abort (s : S)          (** failed assertion or fail-fast call *)
| Fuel (s : S).          (** the iteration budget of a loop ran out *)
Arguments Done {S A} _ _.
Arguments Abort {S A} _.
Arguments Fuel {S A} _.

Definition M (S A : Type) : Type := S → outcome S A.

Definition ret {S A} (a : A) : M S A := λ s, Done a s.
Definition bind {S A B} (m : M S A) (k : A → M S B) : M S B :=
  λ s, match m s with
       | Done a s' => k a s'
       | Abort s' => Abort s'
       | Fuel s' => Fuel s'
       end.
Definition abort {S A} : M S A := λ s, Abort s.
Definition get {S} : M S S := λ s, Done s s.
Definition modify {S} (f : S → S) : M S unit := λ s, Done tt (f s).
Definition assert {S} (b : bool) : M S unit := if b then ret tt else abort.
Definition when {S} (b : bool) (m : M S unit) : M S unit :=
  if b then m else ret tt.
(** fail-fast reads: a missing element aborts *)
Definition must {S A} (o : option A) : M S A :=
  match o with Some a => ret a | None => abort end.

Global Instance M_ret {S} : MRet (M S) := λ A, ret.
Global Instance M_bind {S} : MBind (M S) := λ A B k m, bind m k.

(** [for (x : l) body]: a range-for over a snapshot of the range *)
Fixpoint for_each {S A} (l : list A) (body : A → M S unit) : M S unit :=
  match l with
  | [] => ret tt
  | x :: l' => body x;; for_each l' body
  end.

(** ** Propagation kinds and the worklist *)

Inductive PropagationKind := DOWN | UP | NONE.

Global Instance PropagationKind_eq_dec : EqDecision PropagationKind.
Proof. solve_decision. Defined.

Definition Worklist := list Instruction.

(** [Insert (w, I)]: [std::find] then [push_back] *)
Definition Insert (w : Worklist) (I : Instruction) : Worklist :=
  if bool_decide (I ∈ w) then w else w ++ [I].

(** [w.back ()] and [w.pop_back ()] *)
Definition back (w : Worklist) : option Instruction := last w.
Definition pop_back (w : Worklist) : Worklist := removelast w.

(** Messages written to [errs ()]. *)
Inductive Msg :=
| MsgStarted (engine : string)
| MsgFinished (engine : string)
| MsgNeedMore (direction : string)
| MsgProps (td_props bu_props : N)
| MsgCheckFailed (I : Instruction) (pkind_str : string)
| MsgCheckSucceed.

(** [for (FI, AI; FI != FE && AI != AE; ++FI, ++AI) body]: two iterators
    advanced together, the loop stops when either range is exhausted *)
Fixpoint for_each2 {S A B} (fs : list A) (acts : list B)
    (body : A → B → M S unit) : M S unit :=
  match fs, acts with
  | f :: fs', a :: acts' => body f a;; for_each2 fs' acts' body
  | _, _ => ret tt
  end.

(** *** Decide which kind of propagation (if any) is needed *)
Definition decidePropagation `{L : DsaLib}
    (cs : Instruction) (calleeG callerG : Graph) : PropagationKind :=
  let res := UP in
  let '(ok, sm) := computeCalleeCallerMapping cs calleeG callerG true in
  if ok then
    if isFunction sm then (if isInjective sm then NONE else DOWN) else res
  else res.

(** ** Context-insensitive engine *)
Module CI.
Section Engine.
Context `{L : DsaLib}.
Variable P : Program.
(** whether the log tag [dsa-global] is enabled *)
Variable log_enabled : bool.

(** The analysis object: [m_graph] is null until [runOnModule] resets it. *)
Record State := mkState {
  m_graph : option Graph;
  m_fns : gset Function;
  errs : list Msg
}.

(** the freshly constructed analysis *)
Definition init : State :=
  {| m_graph := None; m_fns := ∅; errs := [] |}.

Definition say (m : Msg) : M State unit :=
  modify (λ s, {| m_graph := m_graph s; m_fns := m_fns s;
                  errs := errs s ++ [m] |}).
Definition LOG (code : M State unit) : M State unit := when log_enabled code.

Definition set_graph (g : Graph) : M State unit :=
  modify (λ s, {| m_graph := Some g; m_fns := m_fns s; errs := errs s |}).
Definition insert_fn (fn : Function) : M State unit :=
  modify (λ s, {| m_graph := m_graph s; m_fns := {[fn]} ∪ m_fns s;
                  errs := errs s |}).

(** run a computation on [*m_graph] *)
Definition on_graph {A} (m : M Graph A) : M State A :=
  λ s, match m_graph s with
       | None => Abort s
       | Some g =>
         match m g with
         | Done a g' =>
           Done a {| m_graph := Some g'; m_fns := m_fns s; errs := errs s |}
         | Abort g' =>
           Abort {| m_graph := Some g'; m_fns := m_fns s; errs := errs s |}
         | Fuel g' =>
           Fuel {| m_graph := Some g'; m_fns := m_fns s; errs := errs s |}
         end
       end.

(** [g.mkCell (v, Cell ())] on the graph in the state *)
Definition mkCellM (v : Value) : M Graph (Cell Node) :=
  λ g, let '(g', c) := mkCell g v in Done c g'.

Definition resolveArguments (cs : Instruction) : M Graph unit :=
  (* unify return *)
  callee ← must (getCallee P cs);
  g ← get;
  when (hasRetCell g callee) (
    nc ← mkCellM cs;
    g ← get;
    r ← must (getRetCell g callee);
    let c := mkCell_ (getNode r) (getOffset r) in
    modify (λ g, unify g nc c));;
  (* unify actuals and formals *)
  for_each2 (formals P cs) (actuals P cs) (λ farg arg,
    g ← get;
    when (hasCell g farg) (
      c ← mkCellM arg;
      d ← mkCellM farg;
      modify (λ g, unify g c d))).

Definition import_scc_member (cgn : CallGraphNode) : M State unit :=
  match getFunction cgn with
  | Some fn =>
    if isDeclaration P fn || empty P fn then ret tt
    else
      (* compute local graph *)
      let fGraph := la_runOnFunction fn newGraph in
      insert_fn fn;;
      on_graph (modify (λ g, import g fGraph true))
  | None => ret tt
  end.

Definition resolve_scc_member (cgn : CallGraphNode) : M State unit :=
  match getFunction cgn with
  | Some fn =>
    if isDeclaration P fn || empty P fn then ret tt
    else
      for_each (callRecords cgn) (λ cs,
        match getCallee P cs with
        | Some callee =>
          when (negb (isDeclaration P callee) && negb (empty P callee)) (
            assert (bool_decide (Some fn = getCaller P cs));;
            on_graph (resolveArguments cs))
        | None => ret tt
        end)
  | None => ret tt
  end.

Definition run_scc (scc : list CallGraphNode) : M State unit :=
  (* all scc members share the same local graph *)
  for_each scc import_scc_member;;
  (* resolve callsites *)
  for_each scc resolve_scc_member;;
  on_graph (modify compress).

Definition runOnModule : M State bool :=
  LOG (say (MsgStarted "context-insensitive"));;
  set_graph newGraph;;
  (* bottom-up inlining of all graphs *)
  for_each (sccs P) run_scc;;
  LOG (say (MsgFinished "context-insensitive"));;
  mret false.

(** [assert (m_graph); return *m_graph;] *)
Definition getGraph (s : State) (fn : Function) : option Graph := m_graph s.

(** [m_fns.count (&fn) > 0] *)
Definition hasGraph (s : State) (fn : Function) : bool :=
  bool_decide (fn ∈ m_fns s).

End Engine.
End CI.

(** ** Context-sensitive engine *)

(** Entries of the ghost log kept beside the analysis state: one entry per
    clone-and-unify block of [cloneAndResolveArguments] that is executed, and
    one per [compress ()] call it makes. *)
Inductive Step :=
| StepGlobal (v : Value)
| StepRet (callee : Function)
| StepArg (arg fml : Value)
| StepCompress (g : GraphRef).

(** loops that carry a local variable *)
Fixpoint foldM {S A C} (body : C → A → M S C) (c : C) (l : list A) : M S C :=
  match l with
  | [] => mret c
  | x :: l' => c' ← body c x; foldM body c' l'
  end.

Fixpoint foldM2 {S A B C} (body : C → A → B → M S C) (c : C)
    (fs : list A) (acts : list B) : M S C :=
  match fs, acts with
  | f :: fs', a :: acts' => c' ← body c f a; foldM2 body c' fs' acts'
  | _, _ => mret c
  end.

(** a loop whose body may [return r] from the enclosing function *)
Fixpoint for_each_until {S A R} (l : list A) (body : A → M S (option R))
    : M S (option R) :=
  match l with
  | [] => mret None
  | x :: l' =>
    r ← body x;
    match r with
    | Some v => mret (Some v)
    | None => for_each_until l' body
    end
  end.

(** [unsigned] counters *)
Definition incr (n : N) : N := ((n + 1) mod 2 ^ 32)%N.

Module CS.
Section Engine.
Context `{L : DsaLib}.
Variable P : Program.
(** whether the log tag [dsa-global] is enabled *)
Variable log_enabled : bool.

(** The analysis object.  [m_graphs] holds shared pointers: several
    functions may share one [Graph] object of [store].  The use and def sets
    are shared pointers as well, but no set is changed once [buildIndexes]
    has stored it, so they are kept by value.  [trace] is the ghost log. *)
Record State := mkState {
  m_graphs : gmap Function GraphRef;
  store : gmap GraphRef Graph;
  m_uses : gmap Function (gset Instruction);
  m_defs : gmap Function (gset Instruction);
  errs : list Msg;
  trace : list Step
}.

(** the freshly constructed analysis *)
Definition init : State :=
  {| m_graphs := ∅; store := ∅; m_uses := ∅; m_defs := ∅;
     errs := []; trace := [] |}.

Definition say (m : Msg) : M State unit :=
  modify (λ s, {| m_graphs := m_graphs s; store := store s;
                  m_uses := m_uses s; m_defs := m_defs s;
                  errs := errs s ++ [m]; trace := trace s |}).
Definition LOG (code : M State unit) : M State unit := when log_enabled code.

Definition log_step (e : Step) : M State unit :=
  modify (λ s, {| m_graphs := m_graphs s; store := store s;
                  m_uses := m_uses s; m_defs := m_defs s;
                  errs := errs s; trace := trace s ++ [e] |}).

(** reading and updating the graph behind a reference *)
Definition readG (r : GraphRef) : M State Graph :=
  s ← get; must (store s !! r).
Definition writeG (r : GraphRef) (g : Graph) : M State unit :=
  modify (λ s, {| m_graphs := m_graphs s; store := <[r:=g]> (store s);
                  m_uses := m_uses s; m_defs := m_defs s;
                  errs := errs s; trace := trace s |}).

(** [C.clone (n)], with [C] bound to the callee graph and [n] a node of the
    caller graph *)
Definition cloneM (C : Cloner) (callerR calleeR : GraphRef) (n : Node)
    : M State (Cloner * Node) :=
  callerG ← readG callerR;
  calleeG ← readG calleeR;
  let '(C', calleeG', n') := clone C callerG calleeG n in
  writeG calleeR calleeG';;
  mret (C', n').

Definition mkCellM (r : GraphRef) (v : Value) : M State (Cell Node) :=
  g ← readG r;
  let '(g', c) := mkCell g v in
  writeG r g';;
  mret c.

Definition unifyM (r : GraphRef) (nc c : Cell Node) : M State unit :=
  g ← readG r;
  writeG r (unify g nc c).

(** clone and unify globals *)
Definition clone_global (callerR calleeR : GraphRef) (C : Cloner)
    (kv : Value * Cell Node) : M State Cloner :=
  '(C, n) ← cloneM C callerR calleeR (getNode kv.2);
  let c := mkCell_ n (getOffset kv.2) in
  nc ← mkCellM calleeR kv.1;
  unifyM calleeR nc c;;
  log_step (StepGlobal kv.1);;
  mret C.

(** clone and unify return *)
Definition clone_return (cs : Instruction) (callee : Function)
    (callerR calleeR : GraphRef) (C : Cloner) : M State Cloner :=
  calleeG ← readG calleeR;
  callerG ← readG callerR;
  if hasRetCell calleeG callee && hasCell callerG cs then
    cell ← must (getCell callerG cs);
    '(C, n) ← cloneM C callerR calleeR (getNode cell);
    callerG ← readG callerR;
    cell ← must (getCell callerG cs);
    let c := mkCell_ n (getOffset cell) in
    calleeG ← readG calleeR;
    nc ← must (getRetCell calleeG callee);
    unifyM calleeR nc c;;
    log_step (StepRet callee);;
    mret C
  else mret C.

(** clone and unify actuals and formals *)
Definition clone_argument (callerR calleeR : GraphRef) (C : Cloner)
    (fml arg : Value) : M State Cloner :=
  callerG ← readG callerR;
  calleeG ← readG calleeR;
  if hasCell callerG arg && hasCell calleeG fml then
    cell ← must (getCell callerG arg);
    '(C, n) ← cloneM C callerR calleeR (getNode cell);
    callerG ← readG callerR;
    cell ← must (getCell callerG arg);
    let c := mkCell_ n (getOffset cell) in
    nc ← mkCellM calleeR fml;
    unifyM calleeR nc c;;
    log_step (StepArg arg fml);;
    mret C
  else mret C.

(** Clone caller nodes into callee and resolve arguments.  The globals
    range is the one the caller graph has when the loop starts. *)
Definition cloneAndResolveArguments (cs : Instruction)
    (callerR calleeR : GraphRef) : M State unit :=
  let C := newCloner in
  callerG ← readG callerR;
  C ← foldM (clone_global callerR calleeR) C (globals callerG);
  callee ← must (getCallee P cs);
  C ← clone_return cs callee callerR calleeR C;
  C ← foldM2 (clone_argument callerR calleeR) C (formals P cs) (actuals P cs);
  calleeG ← readG calleeR;
  writeG calleeR (compress calleeG);;
  log_step (StepCompress calleeR).

(** [decidePropagation] on the graphs behind two references *)
Definition decideM (cs : Instruction) (calleeR callerR : GraphRef)
    : M State PropagationKind :=
  calleeG ← readG calleeR;
  callerG ← readG callerR;
  mret (decidePropagation cs calleeG callerG).

Definition propagateTopDown (cs : Instruction) (callerR calleeR : GraphRef)
    : M State unit :=
  cloneAndResolveArguments cs callerR calleeR;;
  LOG (k ← decideM cs calleeR callerR;
       when (bool_decide (k = DOWN)) (say (MsgNeedMore "top-down")));;
  k ← decideM cs calleeR callerR;
  assert (bool_decide (k ≠ DOWN)).

Definition propagateBottomUp (cs : Instruction) (calleeR callerR : GraphRef)
    : M State unit :=
  calleeG ← readG calleeR;
  callerG ← readG callerR;
  writeG callerR (bu_cloneAndResolveArguments cs calleeG callerG);;
  LOG (k ← decideM cs calleeR callerR;
       when (bool_decide (k = UP)) (say (MsgNeedMore "bottom-up")));;
  k ← decideM cs calleeR callerR;
  assert (bool_decide (k ≠ UP)).

(** *** Use and def sets *)

(** [imm_preds]: insert [I] in the set of [callee], creating it if needed *)
Definition add_pred (imm : gmap Function (gset Instruction))
    (callee : Function) (I : Instruction) : gmap Function (gset Instruction) :=
  match imm !! callee with
  | Some s => <[callee := {[I]} ∪ s]> imm
  | None => <[callee := {[I]}]> imm
  end.

Definition node_preds (imm : gmap Function (gset Instruction))
    (cgn : CallGraphNode) : gmap Function (gset Instruction) :=
  if skipped P (getFunction cgn) then imm
  else
    foldl (λ imm I,
      match getCalledFunction P I with
      | Some callee =>
        if isDeclaration P callee || empty P callee then imm
        else add_pred imm callee I
      | None => imm
      end) imm (callRecords cgn).

(** immediate predecessors (callsites) of each function, direct calls only *)
Definition imm_preds : gmap Function (gset Instruction) :=
  foldl (λ imm scc, foldl node_preds imm scc) ∅ (sccs P).

(** uses and defs shared between all functions in the scc;
    [imm_preds [fn]] is the empty set when [fn] has no entry *)
Definition scc_uses_defs (imm : gmap Function (gset Instruction))
    (scc : list CallGraphNode) : gset Instruction * gset Instruction :=
  foldl (λ '(uses, defs) cgn,
    match getFunction cgn with
    | Some fn =>
      if isDeclaration P fn || empty P fn then (uses, defs)
      else (uses ∪ default ∅ (imm !! fn),
            foldl (λ defs I, defs ∪ {[I]}) defs (callRecords cgn))
    | None => (uses, defs)
    end) (∅, ∅) scc.

Definition store_uses_defs (fn : Function) (uses defs : gset Instruction)
    : M State unit :=
  modify (λ s, {| m_graphs := m_graphs s; store := store s;
                  m_uses := <[fn:=uses]> (m_uses s);
                  m_defs := <[fn:=defs]> (m_defs s);
                  errs := errs s; trace := trace s |}).

Definition buildIndexes : M State unit :=
  let imm := imm_preds in
  (* compute uses/defs sets *)
  for_each (sccs P) (λ scc,
    let '(uses, defs) := scc_uses_defs imm scc in
    (* store uses and defs *)
    for_each scc (λ cgn,
      match getFunction cgn with
      | Some fn =>
        if isDeclaration P fn || empty P fn then mret tt
        else store_uses_defs fn uses defs
      | None => mret tt
      end)).

(** *** The worklist loop *)

(** [m_graphs.count (f) > 0] and [m_graphs.find (f)->second]; no key of
    [m_graphs] is null *)
Definition graph_of (s : State) (f : option Function) : option GraphRef :=
  f ≫= (m_graphs s !!.).

(** [for (const Instruction *cs : *(index [f])) Insert (worklist, cs)];
    a function without an entry has a null set pointer *)
Definition insert_all (index : gmap Function (gset Instruction))
    (f : Function) (w : Worklist) : M State Worklist :=
  set ← must (index !! f);
  mret (foldl Insert w (elements set)).

(** the body of the loop, after [I] was popped from the worklist [w] *)
Definition iteration (I : Instruction) (w : Worklist) (td_props bu_props : N)
    : M State (Worklist * N * N) :=
  if isInlineAsm P I then mret (w, td_props, bu_props)
  else if skipped P (getCallee P I) then mret (w, td_props, bu_props)
  else
    s ← get;
    assert (bool_decide (is_Some (graph_of s (getCaller P I))));;
    assert (bool_decide (is_Some (graph_of s (getCallee P I))));;
    callerG ← must (graph_of s (getCaller P I));
    calleeG ← must (graph_of s (getCallee P I));
    (* find out which propagation is needed if any *)
    propKind ← decideM I calleeG callerG;
    if bool_decide (propKind = DOWN) then
      propagateTopDown I callerG calleeG;;
      let td_props := incr td_props in
      match getCallee P I with
      | Some callee =>
        s ← get;
        w ← insert_all (m_uses s) callee w;  (* they might need bottom-up *)
        w ← insert_all (m_defs s) callee w;  (* they might need top-down *)
        mret (w, td_props, bu_props)
      | None => mret (w, td_props, bu_props)
      end
    else if bool_decide (propKind = UP) then
      propagateBottomUp I calleeG callerG;;
      let bu_props := incr bu_props in
      match getCaller P I with
      | Some caller =>
        s ← get;
        w ← insert_all (m_uses s) caller w;  (* they might need bottom-up *)
        w ← insert_all (m_defs s) caller w;  (* they might need top-down *)
        mret (w, td_props, bu_props)
      | None => mret (w, td_props, bu_props)
      end
    else mret (w, td_props, bu_props).

(** [while (!worklist.empty ())], with a budget of iterations *)
Fixpoint loop (fuel : nat) (w : Worklist) (td_props bu_props : N)
    : M State (N * N) :=
  match back w with
  | None => mret (td_props, bu_props)
  | Some cs =>
    match fuel with
    | O => λ s, Fuel s
    | S fuel' =>
      '(w', td_props, bu_props) ← iteration cs (pop_back w) td_props bu_props;
      loop fuel' w' td_props bu_props
    end
  end.

(** *** Sanity checks *)

Definition pkind_str (pkind : PropagationKind) : string :=
  if bool_decide (pkind = UP) then "bottom-up" else "top-down".

Definition check_callsite (cs : Instruction) : M State (option bool) :=
  if skipped P (getCallee P cs) then mret None
  else
    s ← get;
    assert (bool_decide (is_Some (graph_of s (getCaller P cs))));;
    assert (bool_decide (is_Some (graph_of s (getCallee P cs))));;
    callerG ← must (graph_of s (getCaller P cs));
    calleeG ← must (graph_of s (getCallee P cs));
    pkind ← decideM cs calleeG callerG;
    if bool_decide (pkind ≠ NONE) then
      say (MsgCheckFailed cs (pkind_str pkind));;
      mret (Some false)
    else mret None.

Definition check_node (cgn : CallGraphNode) : M State (option bool) :=
  if skipped P (getFunction cgn) then mret None
  else for_each_until (callRecords cgn) check_callsite.

Definition checkNoMorePropagation : M State bool :=
  r ← for_each_until (sccs P) (λ scc, for_each_until scc check_node);
  match r with
  | Some b => mret b
  | None => say MsgCheckSucceed;; mret true
  end.

(** [assert (checkNoMorePropagation ())] *)
Definition assert_checkNoMorePropagation : M State unit :=
  b ← checkNoMorePropagation;
  assert b.

(** *** The analysis *)

(** [m_graphs [&F] = std::make_shared<Graph> (m_dl, m_setFactory)] *)
Definition new_graph (F : Function) : M State unit :=
  modify (λ s,
    let r := fresh (dom (store s)) in
    {| m_graphs := <[F:=r]> (m_graphs s); store := <[r:=newGraph]> (store s);
       m_uses := m_uses s; m_defs := m_defs s;
       errs := errs s; trace := trace s |}).

(** [bu.runOnModule (M, m_graphs)]: the state it leaves and its
    callee-caller mappings *)
Definition bottomUp : M State (list (Instruction * SimulationMapper)) :=
  λ s,
    let '(graphs, st, mappings) := bu_runOnModule P (m_graphs s) (store s) in
    Done mappings {| m_graphs := graphs; store := st;
                     m_uses := m_uses s; m_defs := m_defs s;
                     errs := errs s; trace := trace s |}.

(** callsites for which two different callee nodes are mapped to the same
    caller node *)
Definition seed (mappings : list (Instruction * SimulationMapper))
    : Worklist :=
  foldl (λ w kv, if isInjective kv.2 then w else w ++ [kv.1]) [] mappings.

(** the steps of [runOnModule] before the loop: the graphs, the bottom-up
    pass, the indexes and the initial worklist *)
Definition initialize : M State Worklist :=
  for_each (functions P) new_graph;;
  (* run bottom up analysis on the whole call graph and initialize worklist *)
  mappings ← bottomUp;
  (* build for each function the set of used/defined callsites *)
  buildIndexes;;
  mret (seed mappings).

Definition runOnModule (fuel : nat) : M State bool :=
  LOG (say (MsgStarted "context-sensitive"));;
  worklist ← initialize;
  (* top-down/bottom-up propagation until no change *)
  '(td_props, bu_props) ← loop fuel worklist 0%N 0%N;
  LOG (say (MsgProps td_props bu_props));;
  LOG (checkNoMorePropagation;; mret tt);;
  assert_checkNoMorePropagation;;
  LOG (say (MsgFinished "context-sensitive"));;
  mret false.

(** [*(m_graphs.find (&fn)->second)] *)
Definition getGraph (s : State) (fn : Function) : option Graph :=
  r ← m_graphs s !! fn; store s !! r.

(** [m_graphs.count (&fn) > 0] *)
Definition hasGraph (s : State) (fn : Function) : bool :=
  bool_decide (is_Some (m_graphs s !! fn)).

End Engine.
End CS.

(** ** The LLVM passes

    A pass object holds a pointer [m_ga] to its analysis, null until
    [runOnModule] resets it to a freshly constructed analysis; [errs ()] is
    the stream of the process and outlives the analysis. *)

Module CIPass.
Section Pass.
Context `{L : DsaLib}.
Variable P : Program.
Variable log_enabled : bool.

Record State := mkState {
  m_ga : option CI.State;
  errs : list Msg
}.

(** [new ContextInsensitiveGlobalAnalysis (dl, tli, cg, m_setFactory)] *)
Definition new_analysis (out : list Msg) : CI.State :=
  {| CI.m_graph := None; CI.m_fns := ∅; CI.errs := out |}.

Definition set_ga (s : CI.State) : State :=
  {| m_ga := Some s; errs := CI.errs s |}.

(** [m_ga.reset (new ...); return m_ga->runOnModule (M);] *)
Definition runOnModule : M State bool :=
  λ p, match CI.runOnModule P log_enabled (new_analysis (errs p)) with
       | Done b s => Done b (set_ga s)
       | Abort s => Abort (set_ga s)
       | Fuel s => Fuel (set_ga s)
       end.

(** [m_ga->getGraph (fn)] and [m_ga->hasGraph (fn)] *)
Definition getGraph (p : State) (fn : Function) : option Graph :=
  s ← m_ga p; CI.getGraph s fn.
Definition hasGraph (p : State) (fn : Function) : option bool :=
  s ← m_ga p; Some (CI.hasGraph s fn).

End Pass.
End CIPass.

Module CSPass.
Section Pass.
Context `{L : DsaLib}.
Variable P : Program.
Variable log_enabled : bool.

Record State := mkState {
  m_ga : option CS.State;
  errs : list Msg
}.

(** [new ContextSensitiveGlobalAnalysis (dl, tli, cg, m_setFactory)] *)
Definition new_analysis (out : list Msg) : CS.State :=
  {| CS.m_graphs := ∅; CS.store := ∅; CS.m_uses := ∅; CS.m_defs := ∅;
     CS.errs := out; CS.trace := [] |}.

Definition set_ga (s : CS.State) : State :=
  {| m_ga := Some s; errs := CS.errs s |}.

(** [m_ga.reset (new ...); return m_ga->runOnModule (M);] *)
Definition runOnModule (fuel : nat) : M State bool :=
  λ p, match CS.runOnModule P log_enabled fuel (new_analysis (errs p)) with
       | Done b s => Done b (set_ga s)
       | Abort s => Abort (set_ga s)
       | Fuel s => Fuel (set_ga s)
       end.

(** [m_ga->getGraph (fn)] and [m_ga->hasGraph (fn)] *)
Definition getGraph (p : State) (fn : Function) : option Graph :=
  s ← m_ga p; CS.getGraph s fn.
Definition hasGraph (p : State) (fn : Function) : option bool :=
  s ← m_ga p; Some (CS.hasGraph s fn).

End Pass.
End CSPass.

(** ** A small graph library

    A field-insensitive instance of [DsaLib] used to run the engines on
    concrete programs: a graph maps locations and returns to node numbers,
    unification renames one node into the other, and a simulation is the
    list of (callee node, caller node) pairs of the call-site interface. *)
Module Example.

Record graph := mkGraph {
  cell_of : gmap Value nat;
  ret_of : gmap Function nat;
  next_node : nat
}.

Definition rename (a b : nat) (g : graph) : graph :=
  let f := λ n : nat, if decide (n = a) then b else n in
  {| cell_of := f <$> cell_of g; ret_of := f <$> ret_of g;
     next_node := next_node g |}.

Definition cell (n : nat) : Cell nat := mkCell_ n 0%N.

Definition ex_mkCell (g : graph) (v : Value) : graph * Cell nat :=
  match cell_of g !! v with
  | Some n => (g, cell n)
  | None =>
    ({| cell_of := <[v:=next_node g]> (cell_of g); ret_of := ret_of g;
        next_node := Datatypes.S (next_node g) |}, cell (next_node g))
  end.

Definition ex_unify (g : graph) (nc c : Cell nat) : graph :=
  rename (getNode nc) (getNode c) g.

Definition ex_clone (C : gmap nat nat) (src dst : graph) (n : nat)
    : gmap nat nat * graph * nat :=
  match C !! n with
  | Some m => (C, dst, m)
  | None =>
    (<[n:=next_node dst]> C,
     {| cell_of := cell_of dst; ret_of := ret_of dst;
        next_node := Datatypes.S (next_node dst) |},
     next_node dst)
  end.

(** a relation is a function when no callee node has two images, and
    injective when no caller node has two sources *)
Definition ex_isFunction (sm : list (nat * nat)) : bool :=
  forallb (λ p, forallb (λ q,
    if decide (p.1 = q.1) then bool_decide (p.2 = q.2) else true) sm) sm.
Definition ex_isInjective (sm : list (nat * nat)) : bool :=
  forallb (λ p, forallb (λ q,
    if decide (p.2 = q.2) then bool_decide (p.1 = q.1) else true) sm) sm.

(** merge by location: the nodes of [src] get fresh numbers, and a
    location both graphs have is unified with the imported cell *)
Definition ex_import (g src : graph) (flag : bool) : graph :=
  let off := next_node g in
  let g0 := {| cell_of := cell_of g; ret_of := ret_of g;
               next_node := off + next_node src |} in
  let g1 :=
    foldl (λ g kv,
      match cell_of g !! kv.1 with
      | Some m => rename m (off + kv.2) g
      | None => {| cell_of := <[kv.1 := off + kv.2]> (cell_of g);
                   ret_of := ret_of g; next_node := next_node g |}
      end) g0 (map_to_list (cell_of src)) in
  foldl (λ g kv,
    match ret_of g !! kv.1 with
    | Some m => rename m (off + kv.2) g
    | None => {| cell_of := cell_of g;
                 ret_of := <[kv.1 := off + kv.2]> (ret_of g);
                 next_node := next_node g |}
    end) g1 (map_to_list (ret_of src)).

Section Lib.
Variable P : Program.
Variable is_global : Value → bool.
(** the local graph of a function: its locations with the index of their
    node, and the node index of its return cell *)
Variable local_cells : Function → list (Value * nat).
Variable local_ret : Function → option nat.
(** a bottom-up pass that only builds the local graphs *)
Variable lazy_bu : bool.

Definition ex_globals (g : graph) : list (Value * Cell nat) :=
  (λ kv, (kv.1, cell kv.2)) <$>
    filter (λ kv, is_global kv.1 = true) (map_to_list (cell_of g)).

Definition ex_la (fn : Function) (g : graph) : graph :=
  let base := next_node g in
  let size := foldr (λ kv m, Datatypes.S kv.2 `max` m)
                    (from_option Datatypes.S 0 (local_ret fn))
                    (local_cells fn) in
  {| cell_of := foldl (λ m kv, <[kv.1 := base + kv.2]> m) (cell_of g)
                      (local_cells fn);
     ret_of := match local_ret fn with
               | Some k => <[fn := base + k]> (ret_of g)
               | None => ret_of g
               end;
     next_node := base + size |}.

(** the pairs of the call-site interface: globals, return, arguments; the
    mapping fails when the caller has no cell for a global of the callee *)
Definition ex_mapping (cs : Instruction) (calleeG callerG : graph)
    (flag : bool) : bool * list (nat * nat) :=
  match getCallee P cs with
  | None => (false, [])
  | Some callee =>
    let gl := (λ kv, (λ m, (getNode kv.2, m)) <$> cell_of callerG !! kv.1)
                <$> ex_globals calleeG in
    if forallb (λ o : option (nat * nat), bool_decide (is_Some o)) gl then
      (true,
       omap id gl ++
       match ret_of calleeG !! callee, cell_of callerG !! cs with
       | Some n, Some m => [(n, m)]
       | _, _ => []
       end ++
       omap (λ fa, match cell_of calleeG !! fa.1, cell_of callerG !! fa.2 with
                   | Some n, Some m => Some (n, m)
                   | _, _ => None
                   end) (zip (formals P cs) (actuals P cs)))
    else (false, [])
  end.

(** clone the callee interface into the caller and unify *)
Definition ex_bu_clone (cs : Instruction) (calleeG callerG : graph) : graph :=
  let step := λ (acc : gmap nat nat * graph) (v : Value) (n : nat),
    let '(C, g, m) := ex_clone acc.1 calleeG acc.2 n in
    let '(g, nc) := ex_mkCell g v in
    (C, ex_unify g nc (cell m)) in
  let acc := foldl (λ acc kv, step acc kv.1 (getNode kv.2)) (∅, callerG)
                   (ex_globals calleeG) in
  let acc :=
    match getCallee P cs ≫= (ret_of calleeG !!.), cell_of acc.2 !! cs with
    | Some n, Some _ => step acc cs n
    | _, _ => acc
    end in
  (foldl (λ acc fa,
     match cell_of calleeG !! fa.1, cell_of acc.2 !! fa.2 with
     | Some n, Some _ => step acc fa.2 n
     | _, _ => acc
     end) acc (zip (formals P cs) (actuals P cs))).2.

Definition ex_bu_runOnModule (P' : Program) (graphs : gmap Function GraphRef)
    (st : gmap GraphRef graph)
    : gmap Function GraphRef * gmap GraphRef graph *
      list (Instruction * list (nat * nat)) :=
  let nodes := filter (λ cgn, skipped P' (getFunction cgn) = false)
                      (concat (sccs P')) in
  let st :=
    foldl (λ st cgn,
      match getFunction cgn ≫= λ fn, (λ r, (fn, r)) <$> graphs !! fn with
      | Some (fn, r) => alter (ex_la fn) r st
      | None => st
      end) st nodes in
  if lazy_bu then (graphs, st, [])
  else
    let sites := filter (λ cs, skipped P' (getCallee P' cs) = false)
                        (nodes ≫= callRecords) in
    let '(st, mappings) :=
      foldl (λ '(st, mappings) cs,
        match getCallee P' cs ≫= (graphs !!.), getCaller P' cs ≫= (graphs !!.)
        with
        | Some calleeR, Some callerR =>
          match st !! calleeR, st !! callerR with
          | Some calleeG, Some callerG =>
            let st := <[callerR := ex_bu_clone cs calleeG callerG]> st in
            match st !! calleeR, st !! callerR with
            | Some calleeG, Some callerG =>
              (st, mappings ++ [(cs, (ex_mapping cs calleeG callerG true).2)])
            | _, _ => (st, mappings)
            end
          | _, _ => (st, mappings)
          end
        | _, _ => (st, mappings)
        end) (st, []) sites in
    (graphs, st, mappings)
  .

Definition lib : DsaLib :=
  {| Graph := graph; Node := nat; Cloner := gmap nat nat;
     SimulationMapper := list (nat * nat);
     newGraph := {| cell_of := ∅; ret_of := ∅; next_node := 0 |};
     import := ex_import;
     compress := λ g, g;
     globals := ex_globals;
     hasCell := λ g v, bool_decide (is_Some (cell_of g !! v));
     getCell := λ g v, cell <$> cell_of g !! v;
     mkCell := ex_mkCell;
     hasRetCell := λ g f, bool_decide (is_Some (ret_of g !! f));
     getRetCell := λ g f, cell <$> ret_of g !! f;
     unify := ex_unify;
     newCloner := ∅;
     clone := ex_clone;
     la_runOnFunction := ex_la;
     computeCalleeCallerMapping := ex_mapping;
     isFunction := ex_isFunction;
     isInjective := ex_isInjective;
     bu_cloneAndResolveArguments := ex_bu_clone;
     bu_runOnModule := ex_bu_runOnModule |}.

End Lib.
End Example.

(** ** A concrete module

    [main] calls [f (p, p)], [h (null)], [f (p, q)] and [f (q, q)];
    [f (a, b)] calls [g (a)] and returns [a]; [g] and [h] make no calls; [k]
    is only declared.  Every function with a body touches the global [G],
    only [main] touches the global [errno]; the constant [null] has no
    cell. *)
Module Demo.

Definition main : Function := 1%positive.
Definition f : Function := 2%positive.
Definition g : Function := 3%positive.
Definition h : Function := 4%positive.
Definition k : Function := 5%positive.

Definition p : Value := 10%positive.
Definition q : Value := 11%positive.
Definition null : Value := 12%positive.
Definition a : Value := 20%positive.
Definition b : Value := 21%positive.
Definition x : Value := 30%positive.
Definition y : Value := 40%positive.
Definition G : Value := 50%positive.
Definition errno : Value := 51%positive.

Definition call_f_pp : Instruction := 101%positive.
Definition call_g_a : Instruction := 102%positive.
Definition call_h_null : Instruction := 103%positive.
Definition call_f_pq : Instruction := 104%positive.
Definition call_f_qq : Instruction := 105%positive.

Definition callee_of (cs : Instruction) : option Function :=
  if decide (cs = call_g_a) then Some g
  else if decide (cs = call_h_null) then Some h
  else if decide (cs ∈ [call_f_pp; call_f_pq; call_f_qq]) then Some f
  else None.

Definition caller_of (cs : Instruction) : option Function :=
  if decide (cs = call_g_a) then Some f
  else if decide (cs ∈ [call_f_pp; call_h_null; call_f_pq; call_f_qq])
  then Some main
  else None.

Definition prog : Program :=
  {| functions := [main; f; g; h; k];
     isDeclaration := λ fn, bool_decide (fn = k);
     empty := λ fn, bool_decide (fn = k);
     sccs := [ [mkCallGraphNode (Some g) []];
               [mkCallGraphNode (Some h) []];
               [mkCallGraphNode (Some f) [call_g_a]];
               [mkCallGraphNode (Some main)
                  [call_f_pp; call_h_null; call_f_pq; call_f_qq]];
               [mkCallGraphNode (Some k) []];
               [mkCallGraphNode None []] ];
     isInlineAsm := λ _, false;
     getCalledFunction := callee_of;
     getCallee := callee_of;
     getCaller := caller_of;
     actuals := λ cs,
       if decide (cs = call_f_pp) then [p; p]
       else if decide (cs = call_g_a) then [a]
       else if decide (cs = call_h_null) then [null]
       else if decide (cs = call_f_pq) then [p; q]
       else if decide (cs = call_f_qq) then [q; q]
       else [];
     formals := λ cs,
       if decide (cs = call_g_a) then [x]
       else if decide (cs = call_h_null) then [y]
       else if decide (cs ∈ [call_f_pp; call_f_pq; call_f_qq]) then [a; b]
       else [] |}.

Definition local_cells (fn : Function) : list (Value * nat) :=
  if decide (fn = main) then [(p, 0); (q, 1); (G, 2); (errno, 3)]
  else if decide (fn = f) then [(a, 0); (b, 1); (G, 2)]
  else if decide (fn = g) then [(x, 0); (G, 1)]
  else if decide (fn = h) then [(y, 0); (G, 1)]
  else [].

Definition local_ret (fn : Function) : option nat :=
  if decide (fn = f) then Some 0 else None.

(** the library with a bottom-up pass that clones callees into callers, and
    the one whose bottom-up pass only builds the local graphs *)
Definition lib : DsaLib :=
  Example.lib prog (λ v, bool_decide (v ∈ [G; errno])) local_cells local_ret
    false.
Definition lazy_lib : DsaLib :=
  Example.lib prog (λ v, bool_decide (v ∈ [G; errno])) local_cells local_ret
    true.

End Demo.

(** ** A module with a recursive pair

    [main] calls [even]; [even] and [odd] call each other and form one SCC;
    [even] also calls the external function [abort] and makes an indirect
    call. *)

Module Mutual.

Definition even : Function := 1%positive.
Definition odd : Function := 2%positive.
Definition main : Function := 3%positive.
Definition abort : Function := 4%positive.

Definition call_odd : Instruction := 101%positive.
Definition call_even : Instruction := 102%positive.
Definition call_main_even : Instruction := 103%positive.
Definition call_abort : Instruction := 104%positive.
Definition call_indirect : Instruction := 105%positive.

Definition callee_of (cs : Instruction) : option Function :=
  if decide (cs = call_odd) then Some odd
  else if decide (cs ∈ [call_even; call_main_even]) then Some even
  else if decide (cs = call_abort) then Some abort
  else None.

Definition caller_of (cs : Instruction) : option Function :=
  if decide (cs ∈ [call_odd; call_abort; call_indirect]) then Some even
  else if decide (cs = call_even) then Some odd
  else if decide (cs = call_main_even) then Some main
  else None.

Definition prog : Program :=
  {| functions := [even; odd; main; abort];
     isDeclaration := λ fn, bool_decide (fn = abort);
     empty := λ fn, bool_decide (fn = abort);
     sccs := [ [mkCallGraphNode (Some abort) []];
               [mkCallGraphNode (Some even)
                  [call_odd; call_abort; call_indirect];
                mkCallGraphNode (Some odd) [call_even]];
               [mkCallGraphNode (Some main) [call_main_even]];
               [mkCallGraphNode None []] ];
     isInlineAsm := λ _, false;
     getCalledFunction := callee_of;
     getCallee := callee_of;
     getCaller := caller_of;
     actuals := λ _, [];
     formals := λ _, [] |}.

End Mutual.

(** * Vocabulary of the statements *)

(** the state a run stops in *)
Definition final {St A} (o : outcome St A) : St :=
  match o with Done _ s | Abort s | Fuel s => s end.

(** what a completed run returns, and whether a run was aborted or ran out
    of budget *)
Definition result {St A} (o : outcome St A) : option A :=
  match o with Done a _ => Some a | _ => None end.
Definition aborted {St A} (o : outcome St A) : bool :=
  match o with Abort _ => true | _ => false end.
Definition out_of_fuel {St A} (o : outcome St A) : bool :=
  match o with Fuel _ => true | _ => false end.

(** [R] relates the state before a run to the state it stops in, however
    the run ends *)
Definition preserves {St A} (R : relation St) (m : M St A) : Prop :=
  ∀ s, R s (final (m s)).

(** the run never exhausts a budget *)
Definition fuel_free {St A} (m : M St A) : Prop := ∀ s s', m s ≠ Fuel s'.

(** two states that agree on the component [π] *)
Definition keeps {St X} (π : St → X) : relation St := λ s s', π s = π s'.

(** [fn] has a body and is the function of a node of the SCC walk *)
Definition imported (P : Program) (fn : Function) : Prop :=
  ∃ scc cgn, scc ∈ sccs P ∧ cgn ∈ scc ∧ getFunction cgn = Some fn ∧
             isDeclaration P fn = false ∧ empty P fn = false.

(** the call sites the sanity check looks at, in the order of the walk: the
    call records of the functions with a body whose callee has a body *)
Definition resolvable_callsites (P : Program) : list Instruction :=
  filter (λ cs, skipped P (getCallee P cs) = false)
    (filter (λ cgn, skipped P (getFunction cgn) = false) (concat (sccs P))
       ≫= callRecords).

(** what [decidePropagation] answers for a call site in a state of the
    context-sensitive engine; [None] when a graph is missing *)
Definition kind_at `{L : DsaLib} (P : Program) (s : CS.State)
    (cs : Instruction) : option PropagationKind :=
  callerR ← CS.graph_of s (getCaller P cs);
  calleeR ← CS.graph_of s (getCallee P cs);
  calleeG ← CS.store s !! calleeR;
  callerG ← CS.store s !! callerR;
  Some (decidePropagation cs calleeG callerG).

(** the functions a list of call-graph nodes imports *)
Definition imports (P : Program) (l : list CallGraphNode) (fn : Function)
    : Prop :=
  ∃ cgn, cgn ∈ l ∧ getFunction cgn = Some fn ∧
         isDeclaration P fn = false ∧ empty P fn = false.

(** the graph pointer of the context-insensitive engine stays set *)
Definition graph_set `{L : DsaLib} : relation CI.State :=
  λ s s', is_Some (CI.m_graph s) → is_Some (CI.m_graph s').

(** the components of the context-sensitive state that the worklist loop
    only reads, and the components that a message leaves alone *)
Definition index `{L : DsaLib} (s : CS.State) :=
  (CS.m_graphs s, CS.m_uses s, CS.m_defs s).
Definition but_errs `{L : DsaLib} (s : CS.State) :=
  (CS.m_graphs s, CS.store s, CS.m_uses s, CS.m_defs s, CS.trace s).

(** the worklist [w'] is [w] after the use set and the def set of [fn]
    were inserted *)
Definition reinserted `{L : DsaLib} (s : CS.State) (fn : Function)
    (w w' : Worklist) : Prop :=
  ∃ uses defs,
    CS.m_uses s !! fn = Some uses ∧ CS.m_defs s !! fn = Some defs ∧
    w' = foldl Insert (foldl Insert w (elements uses)) (elements defs) ∧
    ∀ cs, cs ∈ w' ↔ cs ∈ w ∨ cs ∈ uses ∨ cs ∈ defs.

(** the state of the concrete module when the worklist loop starts *)
Definition demo_ready : CS.State (L := Demo.lib) :=
  final (CS.initialize Demo.prog CS.init).

(** a completed run of [m] appends [t] to the ghost log *)
Definition emits `{L : DsaLib} {A} (m : M CS.State A) (t : list Step) : Prop :=
  ∀ s a s', m s = Done a s' → CS.trace s' = CS.trace s ++ t.

(** both cells of an actual/formal pair exist *)
Definition both_have_cells `{L : DsaLib} (callerR calleeR : GraphRef)
    (s : CS.State) (arg fml : Value) : bool :=
  match CS.store s !! callerR, CS.store s !! calleeR with
  | Some callerG, Some calleeG => hasCell callerG arg && hasCell calleeG fml
  | _, _ => false
  end.

(** the callee graph has a return cell and the caller graph a cell for the
    call *)
Definition both_have_return `{L : DsaLib} (cs : Instruction)
    (callee : Function) (callerR calleeR : GraphRef) (s : CS.State) : bool :=
  match CS.store s !! calleeR, CS.store s !! callerR with
  | Some calleeG, Some callerG => hasRetCell calleeG callee && hasCell callerG cs
  | _, _ => false
  end.

(** a pass over actual/formal pairs: a pair whose two cells exist when the
    pass reaches it is cloned and unified, any other pair is skipped *)
Inductive args_pass `{L : DsaLib} (callerR calleeR : GraphRef)
    : Cloner → CS.State → list (Value * Value) → list Step → Prop :=
| args_pass_nil C s : args_pass callerR calleeR C s [] []
| args_pass_skip C s arg fml l t :
    both_have_cells callerR calleeR s arg fml = false →
    args_pass callerR calleeR C s l t →
    args_pass callerR calleeR C s ((arg, fml) :: l) t
| args_pass_take C s arg fml C1 s1 l t :
    both_have_cells callerR calleeR s arg fml = true →
    CS.clone_argument callerR calleeR C fml arg s = Done C1 s1 →
    args_pass callerR calleeR C1 s1 l t →
    args_pass callerR calleeR C s ((arg, fml) :: l) (StepArg arg fml :: t).

(** the state after [m] was written to [errs ()] *)
Definition said `{L : DsaLib} (m : Msg) (s : CS.State) : CS.State :=
  {| CS.m_graphs := CS.m_graphs s; CS.store := CS.store s;
     CS.m_uses := CS.m_uses s; CS.m_defs := CS.m_defs s;
     CS.errs := CS.errs s ++ [m]; CS.trace := CS.trace s |}.

(** the state of the concrete module when the worklist loop starts, with
    the bottom-up pass that only builds the local graphs *)
Definition demo_lazy_ready : CS.State (L := Demo.lazy_lib) :=
  final (CS.initialize Demo.prog CS.init).

(** no function loses its graph *)
Definition graphs_kept `{L : DsaLib} : relation CS.State :=
  λ s s', ∀ F, is_Some (CS.m_graphs s !! F) → is_Some (CS.m_graphs s' !! F).

(** the bottom-up pass removes no function from the graph map *)
Definition bu_keeps_functions `{L : DsaLib} (P : Program) : Prop :=
  ∀ graphs st F,
    is_Some (graphs !! F) → is_Some ((bu_runOnModule P graphs st).1.1 !! F).

(** every run of [m] from a state with a graph completes, in a state with a
    graph *)
Definition completes `{L : DsaLib} {A} (m : M CI.State A) : Prop :=
  ∀ s, is_Some (CI.m_graph s) →
       ∃ a s', m s = Done a s' ∧ is_Some (CI.m_graph s').

(** the call records of a function with a body are call sites of that
    function *)
Definition callers_agree (P : Program) : Prop :=
  ∀ scc cgn fn cs callee,
    scc ∈ sccs P → cgn ∈ scc → getFunction cgn = Some fn →
    cs ∈ callRecords cgn → getCallee P cs = Some callee →
    getCaller P cs = Some fn.

(** a graph that has a return cell still gives it after a cell was made *)
Definition ret_cell_stays `{L : DsaLib} : Prop :=
  ∀ g f v, hasRetCell g f = true → is_Some (getRetCell (mkCell g v).1 f).

(** [cs] is a direct call to [callee], a function with a body, made in a
    function with a body that the SCC walk reaches *)
Definition direct_call (P : Program) (cs : Instruction) (callee : Function)
    : Prop :=
  ∃ scc cgn, scc ∈ sccs P ∧ cgn ∈ scc ∧
    skipped P (getFunction cgn) = false ∧ cs ∈ callRecords cgn ∧
    getCalledFunction P cs = Some callee ∧
    isDeclaration P callee = false ∧ empty P callee = false.

(** [cs] is a call record of a function with a body of the SCC *)
Definition issued_by (P : Program) (scc : list CallGraphNode)
    (cs : Instruction) : Prop :=
  ∃ cgn, cgn ∈ scc ∧ skipped P (getFunction cgn) = false ∧
         cs ∈ callRecords cgn.

(** no function with a body belongs to two SCCs of the walk *)
Definition one_scc_each (P : Program) : Prop :=
  ∀ scc1 scc2 fn,
    scc1 ∈ sccs P → scc2 ∈ sccs P →
    imports P scc1 fn → imports P scc2 fn → scc1 = scc2.

(** [cs] is in the set that [imm] has for [callee]; a function without an
    entry has the empty set *)
Definition has_pred (imm : gmap Function (gset Instruction))
    (callee : Function) (cs : Instruction) : Prop :=
  cs ∈ default ∅ (imm !! callee).

(** [cs] calls [callee] directly, and [callee] has a body *)
Definition record_ok (P : Program) (cs : Instruction) (callee : Function)
    : Prop :=
  getCalledFunction P cs = Some callee ∧
  isDeclaration P callee = false ∧ empty P callee = false.

(** one step of the fold of [scc_uses_defs] *)
Definition uses_defs_step (P : Program)
    (imm : gmap Function (gset Instruction))
    : gset Instruction * gset Instruction → CallGraphNode →
      gset Instruction * gset Instruction :=
  λ '(uses, defs) cgn,
    match getFunction cgn with
    | Some fn =>
      if isDeclaration P fn || empty P fn then (uses, defs)
      else (uses ∪ default ∅ (imm !! fn),
            foldl (λ defs I, defs ∪ {[I]}) defs (callRecords cgn))
    | None => (uses, defs)
    end.

(** the entries of the two indexes for [fn], and what [buildIndexes] leaves
    alone *)
Definition sets_of `{L : DsaLib} (s : CS.State) (fn : Function)
    : option (gset Instruction) * option (gset Instruction) :=
  (CS.m_uses s !! fn, CS.m_defs s !! fn).
Definition but_indexes `{L : DsaLib} (s : CS.State) :=
  (CS.m_graphs s, CS.store s, CS.errs s, CS.trace s).

(** a call site the loop has nothing to do for: an inline-asm call, a call
    without a callee with a body, or a call that is consistent *)
Definition settled `{L : DsaLib} (P : Program) (s : CS.State)
    (cs : Instruction) : Prop :=
  isInlineAsm P cs = true ∨ skipped P (getCallee P cs) = true ∨
  kind_at P s cs = Some NONE.

(** the graphs behind every reference but [r0] are the same *)
Definition store_off `{L : DsaLib} (r0 : GraphRef) : relation CS.State :=
  λ s s', ∀ r, r ≠ r0 → CS.store s' !! r = CS.store s !! r.

(** [R] relates the state before a run that completes to the state after *)
Definition on_done {St A} (R : relation St) (m : M St A) : Prop :=
  ∀ s a s', m s = Done a s' → R s s'.

(** what a completed run of the context-sensitive engine writes to
    [errs ()] when it made [td] top-down and [bu] bottom-up propagations,
    and what a completed run of the context-insensitive engine writes *)
Definition CS_output (log_enabled : bool) (td bu : N) : list Msg :=
  (if log_enabled
   then [MsgStarted "context-sensitive"; MsgProps td bu; MsgCheckSucceed]
   else []) ++
  [MsgCheckSucceed] ++
  (if log_enabled then [MsgFinished "context-sensitive"] else []).
Definition CI_output (log_enabled : bool) : list Msg :=
  if log_enabled
  then [MsgStarted "context-insensitive"; MsgFinished "context-insensitive"]
  else [].

(** two runs of the context-insensitive engine end in the same way, with
    the same value and the same graph *)
Definition same_graph `{L : DsaLib} {A} (o1 o2 : outcome CI.State A) : Prop :=
  match o1, o2 with
  | Done a s1, Done b s2 => a = b ∧ CI.m_graph s1 = CI.m_graph s2
  | Abort s1, Abort s2 | Fuel s1, Fuel s2 => CI.m_graph s1 = CI.m_graph s2
  | _, _ => False
  end.

(** a computation that reads nothing of the analysis object but its graph *)
Definition graph_only `{L : DsaLib} {A} (m : M CI.State A) : Prop :=
  ∀ s1 s2, CI.m_graph s1 = CI.m_graph s2 → same_graph (m s1) (m s2).

(** the program in which the call [cs] has the actual parameters [acts],
    and the one in which its callee has the formal parameters [fmls] *)
Definition with_actuals (P : Program) (cs : Instruction) (acts : list Value)
    : Program :=
  {| functions := functions P; isDeclaration := isDeclaration P;
     empty := empty P; sccs := sccs P; isInlineAsm := isInlineAsm P;
     getCalledFunction := getCalledFunction P; getCallee := getCallee P;
     getCaller := getCaller P;
     actuals := λ c, if decide (c = cs) then acts else actuals P c;
     formals := formals P |}.
Definition with_formals (P : Program) (cs : Instruction) (fmls : list Value)
    : Program :=
  {| functions := functions P; isDeclaration := isDeclaration P;
     empty := empty P; sccs := sccs P; isInlineAsm := isInlineAsm P;
     getCalledFunction := getCalledFunction P; getCallee := getCallee P;
     getCaller := getCaller P; actuals := actuals P;
     formals := λ c, if decide (c = cs) then fmls else formals P c |}.

(** the state of the concrete module after the context-sensitive run *)
Definition demo_done : CS.State (L := Demo.lib) :=
  final (CS.runOnModule Demo.prog false 7 CS.init).

(** * Reasoning about runs *)

Section Runs.
Context {St : Type}.

Lemma Done_result {A} (o : outcome St A) a :
  result o = Some a → o = Done a (final o).
Proof. destruct o; simpl; congruence. Qed.

Lemma Abort_aborted {A} (o : outcome St A) :
  aborted o = true → o = Abort (final o).
Proof. by destruct o. Qed.

Lemma Fuel_out_of_fuel {A} (o : outcome St A) :
  out_of_fuel o = true → o = Fuel (final o).
Proof. by destruct o. Qed.

Lemma bind_Done {A B} (m : M St A) (k : A → M St B) s b s' :
  (m ≫= k) s = Done b s' ↔ ∃ a s1, m s = Done a s1 ∧ k a s1 = Done b s'.
Proof.
  unfold mbind, M_bind, bind. split.
  - destruct (m s) as [a s1| |]; [eauto | done | done].
  - intros (a & s1 & -> & ?). done.
Qed.

Lemma bind_Done_eq {A B} (m : M St A) (k : A → M St B) s a s1 :
  m s = Done a s1 → (m ≫= k) s = k a s1.
Proof. unfold mbind, M_bind, bind. by intros ->. Qed.

Lemma bind_Abort_eq {A B} (m : M St A) (k : A → M St B) s s1 :
  m s = Abort s1 → (m ≫= k) s = Abort s1.
Proof. unfold mbind, M_bind, bind. by intros ->. Qed.

Lemma ret_Done {A} (a b : A) (s s' : St) :
  (mret a : M St A) s = Done b s' ↔ a = b ∧ s = s'.
Proof. unfold mret, M_ret, ret. split; [by intros [= -> ->] | by intros [-> ->]]. Qed.

Lemma get_Done (s : St) a s' : get s = Done a s' ↔ a = s ∧ s' = s.
Proof. unfold get. split; [by intros [= -> ->] | by intros [-> ->]]. Qed.

Lemma modify_Done (f : St → St) s u s' : modify f s = Done u s' ↔ s' = f s.
Proof. unfold modify. destruct u. split; [by intros [= ->] | by intros ->]. Qed.

Lemma must_Done {A} (o : option A) (s : St) a s' :
  must o s = Done a s' ↔ o = Some a ∧ s' = s.
Proof.
  unfold must, ret, abort. destruct o; split; try done.
  - by intros [= -> ->].
  - by intros [[= ->] ->].
  - by intros [? _].
Qed.

Lemma assert_Done (b : bool) (s : St) u s' :
  assert b s = Done u s' ↔ b = true ∧ s' = s.
Proof.
  unfold assert, ret, abort. destruct b, u; split; try done.
  - by intros [= ->].
  - by intros [_ ->].
  - by intros [? _].
Qed.

Lemma when_false (m : M St unit) s : when false m s = Done tt s.
Proof. done. Qed.

Lemma when_true (m : M St unit) : when true m = m.
Proof. done. Qed.

Section Preserves.
Context (R : relation St) `{!PreOrder R}.

Lemma preserves_ret {A} (a : A) : preserves R (mret a : M St A).
Proof. intros s. simpl. reflexivity. Qed.

Lemma preserves_bind {A B} (m : M St A) (k : A → M St B) :
  preserves R m → (∀ a, preserves R (k a)) → preserves R (m ≫= k).
Proof.
  intros Hm Hk s. unfold mbind, M_bind, bind.
  specialize (Hm s). destruct (m s) as [a s1| |]; simpl in *; [|done..].
  etrans; [done|]. apply Hk.
Qed.

Lemma preserves_get : preserves R get.
Proof. intros s. simpl. reflexivity. Qed.

Lemma preserves_abort {A} : preserves R (abort : M St A).
Proof. intros s. simpl. reflexivity. Qed.

Lemma preserves_stop : preserves R (λ s, Fuel s : outcome St unit).
Proof. intros s. simpl. reflexivity. Qed.

Lemma preserves_must {A} (o : option A) : preserves R (must o).
Proof. destruct o; [apply preserves_ret | apply preserves_abort]. Qed.

Lemma preserves_assert b : preserves R (assert b).
Proof. destruct b; [apply preserves_ret | apply preserves_abort]. Qed.

Lemma preserves_when b (m : M St unit) :
  preserves R m → preserves R (when b m).
Proof. destruct b; [done | intros _; apply preserves_ret]. Qed.

Lemma preserves_modify (f : St → St) :
  (∀ s, R s (f s)) → preserves R (modify f).
Proof. intros Hf s. apply Hf. Qed.

Lemma preserves_for_each {A} (l : list A) (body : A → M St unit) :
  (∀ x, preserves R (body x)) → preserves R (for_each l body).
Proof.
  intros Hb. induction l as [|x l IH]; simpl.
  - apply preserves_ret.
  - apply preserves_bind; auto.
Qed.

Lemma preserves_for_each2 {A B} (fs : list A) (acts : list B)
    (body : A → B → M St unit) :
  (∀ x y, preserves R (body x y)) → preserves R (for_each2 fs acts body).
Proof.
  intros Hb. revert acts. induction fs as [|x fs IH]; intros [|y acts]; simpl;
    try apply preserves_ret.
  apply preserves_bind; auto.
Qed.

Lemma preserves_foldM {A C} (body : C → A → M St C) (c : C) (l : list A) :
  (∀ c x, preserves R (body c x)) → preserves R (foldM body c l).
Proof.
  intros Hb. revert c. induction l as [|x l IH]; intros c; simpl.
  - apply preserves_ret.
  - apply preserves_bind; auto.
Qed.

Lemma preserves_foldM2 {A B C} (body : C → A → B → M St C) (c : C)
    (fs : list A) (acts : list B) :
  (∀ c x y, preserves R (body c x y)) → preserves R (foldM2 body c fs acts).
Proof.
  intros Hb. revert c acts.
  induction fs as [|x fs IH]; intros c [|y acts]; simpl;
    try apply preserves_ret.
  apply preserves_bind; auto.
Qed.

Lemma preserves_for_each_until {A B} (l : list A)
    (body : A → M St (option B)) :
  (∀ x, preserves R (body x)) → preserves R (for_each_until l body).
Proof.
  intros Hb. induction l as [|x l IH]; simpl.
  - apply preserves_ret.
  - apply preserves_bind; [done|]. intros [v|]; [apply preserves_ret | done].
Qed.

Lemma preserves_Done {A} (m : M St A) s a s' :
  preserves R m → m s = Done a s' → R s s'.
Proof. intros Hm Hs. specialize (Hm s). by rewrite Hs in Hm. Qed.

End Preserves.
End Runs.

Global Instance keeps_preorder {St X} (π : St → X) : PreOrder (keeps π).
Proof.
  split; [intros s; reflexivity | intros s1 s2 s3; unfold keeps; congruence].
Qed.

(** the structural steps of a [preserves] proof *)
Ltac preserves_step :=
  lazymatch goal with
  | |- preserves _ (mret _) => apply preserves_ret
  | |- preserves _ (ret _) => apply preserves_ret
  | |- preserves _ (_ ≫= _) => apply preserves_bind
  | |- preserves _ get => apply preserves_get
  | |- preserves _ abort => apply preserves_abort
  | |- preserves _ (must _) => apply preserves_must
  | |- preserves _ (assert _) => apply preserves_assert
  | |- preserves _ (when _ _) => apply preserves_when
  | |- preserves _ (for_each _ _) => apply preserves_for_each
  | |- preserves _ (for_each2 _ _ _) => apply preserves_for_each2
  | |- preserves _ (foldM _ _ _) => apply preserves_foldM
  | |- preserves _ (foldM2 _ _ _ _) => apply preserves_foldM2
  | |- preserves _ (for_each_until _ _) => apply preserves_for_each_until
  | |- preserves _ (λ s, Fuel s) => apply preserves_stop
  end;
  try lazymatch goal with |- PreOrder _ => apply _ end.

Ltac preserves_go :=
  repeat first
    [ match goal with |- ∀ _, _ => intro end
    | preserves_step
    | match goal with
      | |- preserves _ (let '(_, _) := ?e in _) => destruct e
      | |- preserves _ (match ?e with _ => _ end) => destruct e
      | |- preserves _ (if ?e then _ else _) => destruct e
      end ].

(** * The propagation decision *)

(** C1 (as amended).  [decidePropagation] answers [UP] exactly when the
    mapping computation fails or succeeds with a mapping that is not a
    function, [DOWN] exactly when it succeeds with a function that is not
    injective, and [NONE] exactly when it succeeds with an injective
    function; these are its only answers. *)
Theorem decidePropagation_cases `{L : DsaLib}
    (cs : Instruction) (calleeG callerG : Graph) :
  let ok := (computeCalleeCallerMapping cs calleeG callerG true).1 in
  let sm := (computeCalleeCallerMapping cs calleeG callerG true).2 in
  let res := decidePropagation cs calleeG callerG in
  (res = UP ↔ ok = false ∨ isFunction sm = false) ∧
  (res = DOWN ↔ ok = true ∧ isFunction sm = true ∧ isInjective sm = false) ∧
  (res = NONE ↔ ok = true ∧ isFunction sm = true ∧ isInjective sm = true) ∧
  (res = UP ∨ res = DOWN ∨ res = NONE).
Proof.
  unfold decidePropagation.
  destruct (computeCalleeCallerMapping cs calleeG callerG true) as [ok sm].
  simpl. destruct ok, (isFunction sm), (isInjective sm); simpl;
    repeat split; intros; try done; try (by left); try (by right);
    try (by right; left); try (by right; right);
    repeat match goal with
           | H : _ ∨ _ |- _ => destruct H
           | H : _ ∧ _ |- _ => destruct H
           end; done.
Qed.

(** C1, as first stated, fails: at the call [f (p, q)] with the two formals
    of [f] on one node and [p], [q] on two, the mapping computation
    succeeds, its mapping sends one callee node to two caller nodes, and the
    answer is [UP]. *)
Lemma decidePropagation_up_with_mapping :
  let calleeG := Example.mkGraph (list_to_map [(Demo.a, 0); (Demo.b, 0)]) ∅ 1 in
  let callerG := Example.mkGraph (list_to_map [(Demo.p, 0); (Demo.q, 1)]) ∅ 2 in
  let res := computeCalleeCallerMapping (DsaLib := Demo.lib)
               Demo.call_f_pq calleeG callerG true in
  res = (true, [(0, 0); (0, 1)]) ∧
  decidePropagation (L := Demo.lib) Demo.call_f_pq calleeG callerG = UP ∧
  ¬ (decidePropagation (L := Demo.lib) Demo.call_f_pq calleeG callerG = UP
     ↔ res.1 = false).
Proof.
  assert (E : computeCalleeCallerMapping (DsaLib := Demo.lib) Demo.call_f_pq
            (Example.mkGraph (list_to_map [(Demo.a, 0); (Demo.b, 0)]) ∅ 1)
            (Example.mkGraph (list_to_map [(Demo.p, 0); (Demo.q, 1)]) ∅ 2)
            true = (true, [(0, 0); (0, 1)])) by (vm_compute; reflexivity).
  cbv zeta. unfold decidePropagation. rewrite E.
  split; [done|]. split; [reflexivity|].
  intros [H _]. simpl in H. by specialize (H eq_refl).
Qed.

Lemma decidePropagation_cases_witness :
  decidePropagation (L := Demo.lib) Demo.call_f_pq
    (Example.mkGraph (list_to_map [(Demo.a, 0); (Demo.b, 0)]) ∅ 1)
    (Example.mkGraph (list_to_map [(Demo.p, 0); (Demo.q, 1)]) ∅ 2) = UP.
Proof.
  apply (decidePropagation_cases (L := Demo.lib)). right. vm_compute. reflexivity.
Defined.

(** * The worklist *)

Lemma back_app (w : Worklist) (cs : Instruction) : back (w ++ [cs]) = Some cs.
Proof. unfold back. apply last_snoc. Qed.

Lemma pop_back_app (w : Worklist) (cs : Instruction) :
  pop_back (w ++ [cs]) = w.
Proof. unfold pop_back. apply removelast_last. Qed.

Lemma Insert_elem_of (w : Worklist) (cs : Instruction) :
  cs ∈ w → Insert w cs = w.
Proof. intros H. unfold Insert. by rewrite bool_decide_eq_true_2. Qed.

Lemma Insert_not_elem_of (w : Worklist) (cs : Instruction) :
  cs ∉ w → Insert w cs = w ++ [cs].
Proof. intros H. unfold Insert. by rewrite bool_decide_eq_false_2. Qed.

Lemma elem_of_Insert (w : Worklist) (cs x : Instruction) :
  x ∈ Insert w cs ↔ x ∈ w ∨ x = cs.
Proof.
  unfold Insert. case_bool_decide.
  - split; [by left | by intros [?| ->]].
  - rewrite elem_of_app, list_elem_of_singleton. done.
Qed.

Lemma NoDup_Insert (w : Worklist) (cs : Instruction) :
  NoDup w → NoDup (Insert w cs).
Proof.
  intros Hw. unfold Insert. case_bool_decide; [done|].
  apply NoDup_app. split_and!; [done | | apply NoDup_singleton].
  intros x Hx ->%list_elem_of_singleton. done.
Qed.

(** C8.  Inserting a pending call site leaves the worklist as it is,
    inserting another one appends it at the back, inserting twice is
    inserting once; the back of the worklist is the element appended last,
    and an iteration of the loop removes exactly that element and runs the
    loop body on it. *)
Theorem worklist_insert_idempotent_lifo `{L : DsaLib} (P : Program)
    (log_enabled : bool) (w : Worklist) (cs : Instruction) :
  (cs ∈ w → Insert w cs = w) ∧
  (cs ∉ w → Insert w cs = w ++ [cs]) ∧
  Insert (Insert w cs) cs = Insert w cs ∧
  back (w ++ [cs]) = Some cs ∧
  pop_back (w ++ [cs]) = w ∧
  ∀ fuel td_props bu_props,
    CS.loop P log_enabled (Datatypes.S fuel) (w ++ [cs]) td_props bu_props =
    ('(w', td_props, bu_props) ←
       CS.iteration P log_enabled cs w td_props bu_props;
     CS.loop P log_enabled fuel w' td_props bu_props).
Proof.
  split_and!.
  - apply Insert_elem_of.
  - apply Insert_not_elem_of.
  - apply Insert_elem_of, elem_of_Insert. by right.
  - apply back_app.
  - apply pop_back_app.
  - intros fuel td bu. simpl. by rewrite back_app, pop_back_app.
Qed.

Lemma worklist_insert_idempotent_lifo_witness :
  Insert [Demo.call_f_pp; Demo.call_g_a] Demo.call_g_a
    = [Demo.call_f_pp; Demo.call_g_a] ∧
  Insert [Demo.call_f_pp; Demo.call_g_a] Demo.call_f_pq
    = [Demo.call_f_pp; Demo.call_g_a; Demo.call_f_pq].
Proof.
  split.
  - apply (worklist_insert_idempotent_lifo (L := Demo.lib) Demo.prog false).
    vm_compute. apply list_elem_of_further, list_elem_of_here.
  - apply (worklist_insert_idempotent_lifo (L := Demo.lib) Demo.prog false).
    intros H. by vm_compute in H; repeat (apply elem_of_cons in H as [H|H]; [done|]); apply elem_of_nil in H.
Defined.

(** * The context-insensitive engine *)

Section CI_facts.
Context `{L : DsaLib}.
Variable P : Program.
Variable log_enabled : bool.

Local Abbreviation State := (@CI.State L).

Local Instance graph_set_preorder : PreOrder graph_set.
Proof.
  split; [intros s H; exact H | intros s1 s2 s3 H1 H2 H; exact (H2 (H1 H))].
Qed.

Lemma on_graph_fns {A} (m : M Graph A) :
  preserves (keeps CI.m_fns) (CI.on_graph m).
Proof.
  intros s. unfold CI.on_graph, keeps.
  destruct (CI.m_graph s); [|done]. by destruct (m _).
Qed.

Lemma on_graph_set {A} (m : M Graph A) : preserves graph_set (CI.on_graph m).
Proof.
  intros s. unfold CI.on_graph, graph_set.
  destruct (CI.m_graph s); [|done]. by destruct (m _); simpl.
Qed.

Lemma on_graph_fuel_free {A} (m : M Graph A) :
  fuel_free m → fuel_free (CI.on_graph m).
Proof.
  intros Hm s s'. unfold CI.on_graph.
  destruct (CI.m_graph s) as [g|]; [|done].
  specialize (Hm g). by destruct (m g) as [| |g']; [..|destruct (Hm g')].
Qed.

Lemma say_fns m : preserves (keeps CI.m_fns) (CI.say m).
Proof. by apply preserves_modify. Qed.

Lemma say_set m : preserves graph_set (CI.say m).
Proof. apply preserves_modify. intros s H. exact H. Qed.

Lemma resolve_scc_member_fns cgn :
  preserves (keeps CI.m_fns) (CI.resolve_scc_member P cgn).
Proof.
  unfold CI.resolve_scc_member. preserves_go; apply on_graph_fns.
Qed.

Lemma run_scc_set scc : preserves graph_set (CI.run_scc P scc).
Proof.
  unfold CI.run_scc, CI.import_scc_member, CI.resolve_scc_member,
    CI.insert_fn.
  preserves_go; try apply on_graph_set.
  apply preserves_modify. intros s H. exact H.
Qed.

Lemma import_scc_member_fns cgn s s' :
  CI.import_scc_member P cgn s = Done tt s' →
  ∀ fn, fn ∈ CI.m_fns s' ↔ fn ∈ CI.m_fns s ∨ imports P [cgn] fn.
Proof.
  unfold CI.import_scc_member, imports. intros Hrun fn.
  destruct (getFunction cgn) as [fn'|] eqn:Hfn.
  2:{ apply ret_Done in Hrun as [_ <-]. split; [by left|].
      intros [?|(c & ->%list_elem_of_singleton & ? & _)]; [done|congruence]. }
  destruct (isDeclaration P fn' || empty P fn') eqn:Hskip.
  { apply ret_Done in Hrun as [_ <-]. split; [by left|].
    intros [?|(c & ->%list_elem_of_singleton & ? & Hd & He)]; [done|].
    simplify_eq. by rewrite Hd, He in Hskip. }
  apply bind_Done in Hrun as ([] & s1 & Hins & Himp).
  apply modify_Done in Hins.
  apply (preserves_Done _ _ _ _ _ (on_graph_fns _)) in Himp.
  unfold keeps in Himp. rewrite <- Himp, Hins. simpl.
  apply orb_false_elim in Hskip as [Hd He].
  rewrite elem_of_union, elem_of_singleton. split.
  - intros [->|?]; [right|by left].
    exists cgn. by rewrite list_elem_of_singleton.
  - intros [?|(c & ->%list_elem_of_singleton & ? & _)]; [by right|left].
    congruence.
Qed.

Lemma for_each_import_fns scc s s' :
  for_each scc (CI.import_scc_member P) s = Done tt s' →
  ∀ fn, fn ∈ CI.m_fns s' ↔ fn ∈ CI.m_fns s ∨ imports P scc fn.
Proof.
  revert s. induction scc as [|cgn scc IH]; intros s Hrun fn; simpl in Hrun.
  - apply ret_Done in Hrun as [_ <-]. split; [by left|].
    intros [?|(c & []%elem_of_nil & _)]. done.
  - apply bind_Done in Hrun as ([] & s1 & H1 & H2).
    rewrite (IH _ H2), (import_scc_member_fns _ _ _ H1). unfold imports.
    setoid_rewrite elem_of_cons. setoid_rewrite elem_of_nil.
    naive_solver.
Qed.

Lemma run_scc_fns scc s s' :
  CI.run_scc P scc s = Done tt s' →
  ∀ fn, fn ∈ CI.m_fns s' ↔ fn ∈ CI.m_fns s ∨ imports P scc fn.
Proof.
  unfold CI.run_scc. intros Hrun fn.
  apply bind_Done in Hrun as ([] & s1 & H1 & Hrun).
  apply bind_Done in Hrun as ([] & s2 & H2 & H3).
  apply (preserves_Done (keeps CI.m_fns) _ _ _ _
           (preserves_for_each _ _ _ resolve_scc_member_fns)) in H2.
  apply (preserves_Done _ _ _ _ _ (on_graph_fns _)) in H3.
  unfold keeps in *. rewrite <- H3, <- H2. by apply for_each_import_fns.
Qed.

Lemma for_each_run_scc_fns l s s' :
  for_each l (CI.run_scc P) s = Done tt s' →
  ∀ fn, fn ∈ CI.m_fns s' ↔
        fn ∈ CI.m_fns s ∨ ∃ scc, scc ∈ l ∧ imports P scc fn.
Proof.
  revert s. induction l as [|scc l IH]; intros s Hrun fn; simpl in Hrun.
  - apply ret_Done in Hrun as [_ <-]. split; [by left|].
    intros [?|(c & []%elem_of_nil & _)]. done.
  - apply bind_Done in Hrun as ([] & s1 & H1 & H2).
    rewrite (IH _ H2), (run_scc_fns _ _ _ H1).
    setoid_rewrite elem_of_cons. naive_solver.
Qed.

(** the stages of [runOnModule] *)
Lemma runOnModule_Done s b s' :
  CI.runOnModule P log_enabled s = Done b s' →
  b = false ∧
  ∃ s0 s1 s2,
    CI.LOG log_enabled (CI.say (MsgStarted "context-insensitive")) s
      = Done tt s0 ∧
    CI.set_graph newGraph s0 = Done tt s1 ∧
    for_each (sccs P) (CI.run_scc P) s1 = Done tt s2 ∧
    CI.LOG log_enabled (CI.say (MsgFinished "context-insensitive")) s2
      = Done tt s'.
Proof.
  unfold CI.runOnModule. intros Hrun.
  apply bind_Done in Hrun as ([] & s0 & H0 & Hrun).
  apply bind_Done in Hrun as ([] & s1 & H1 & Hrun).
  apply bind_Done in Hrun as ([] & s2 & H2 & Hrun).
  apply bind_Done in Hrun as ([] & s3 & H3 & Hrun).
  apply ret_Done in Hrun as [<- <-]. split; [done|].
  by exists s0, s1, s2.
Qed.

Lemma LOG_say_fns m : preserves (keeps CI.m_fns) (CI.LOG log_enabled (CI.say m)).
Proof. unfold CI.LOG. preserves_go. apply say_fns. Qed.

Lemma LOG_say_set m : preserves graph_set (CI.LOG log_enabled (CI.say m)).
Proof. unfold CI.LOG. preserves_go. apply say_set. Qed.

Lemma runOnModule_fns s b s' :
  CI.runOnModule P log_enabled s = Done b s' →
  ∀ fn, fn ∈ CI.m_fns s' ↔ fn ∈ CI.m_fns s ∨ imported P fn.
Proof.
  intros (_ & s0 & s1 & s2 & H0 & H1 & H2 & H3)%runOnModule_Done fn.
  apply (preserves_Done _ _ _ _ _ (LOG_say_fns _)) in H0, H3.
  apply modify_Done in H1. unfold keeps in *.
  rewrite <- H3, (for_each_run_scc_fns _ _ _ H2), H1. simpl. rewrite <- H0.
  unfold imported, imports. naive_solver.
Qed.

Lemma runOnModule_graph s b s' :
  CI.runOnModule P log_enabled s = Done b s' → is_Some (CI.m_graph s').
Proof.
  intros (_ & s0 & s1 & s2 & H0 & H1 & H2 & H3)%runOnModule_Done.
  apply (preserves_Done _ _ _ _ _ (LOG_say_set _)) in H3. apply H3.
  apply (preserves_Done graph_set _ _ _ _
           (preserves_for_each _ _ _ run_scc_set)) in H2.
  apply H2. apply modify_Done in H1. by rewrite H1.
Qed.

End CI_facts.


(** C7.  After the context-insensitive run of a freshly constructed
    analysis, [hasGraph (fn)] holds exactly for the functions that were
    imported: those with a body that the SCC walk reached. *)
Theorem CI_hasGraph_iff_imported `{L : DsaLib} (P : Program)
    (log_enabled : bool) (s' : CI.State) (b : bool) :
  CI.runOnModule P log_enabled CI.init = Done b s' →
  ∀ fn, CI.hasGraph s' fn = true ↔ imported P fn.
Proof.
  intros Hrun fn. unfold CI.hasGraph. rewrite bool_decide_eq_true.
  rewrite (runOnModule_fns _ _ _ _ _ Hrun). simpl.
  split; [intros [[]%not_elem_of_empty|?]; done | by right].
Qed.

(** * The context-sensitive engine *)

Ltac cs_unfold :=
  unfold CS.iteration, CS.propagateTopDown, CS.propagateBottomUp,
    CS.cloneAndResolveArguments, CS.clone_argument, CS.clone_return,
    CS.clone_global, CS.assert_checkNoMorePropagation,
    CS.checkNoMorePropagation, CS.check_node, CS.check_callsite,
    CS.decideM, CS.insert_all, CS.unifyM, CS.mkCellM, CS.cloneM, CS.readG,
    CS.writeG, CS.log_step, CS.LOG, CS.say.

(** frame properties of code made of reads, writes and messages *)
Ltac cs_preserves :=
  cs_unfold; preserves_go;
  try lazymatch goal with
      | |- preserves (keeps _) (modify _) =>
        apply preserves_modify; intros ?; reflexivity
      end.

Section CS_facts.
Context `{L : DsaLib}.
Variable P : Program.
Variable log_enabled : bool.

Local Abbreviation State := (@CS.State L).

(** ** What the loop leaves alone *)

Lemma iteration_index cs w td bu :
  preserves (keeps index) (CS.iteration P log_enabled cs w td bu).
Proof. cs_preserves. Qed.

Lemma loop_index fuel w td bu :
  preserves (keeps index) (CS.loop P log_enabled fuel w td bu).
Proof.
  revert w td bu. induction fuel as [|fuel IH]; intros w td bu; simpl;
    destruct (back w); preserves_go; auto using iteration_index.
Qed.

Lemma checkNoMorePropagation_but_errs :
  preserves (keeps but_errs) (CS.checkNoMorePropagation P).
Proof. cs_preserves. Qed.

Lemma propagateTopDown_index cs callerR calleeR :
  preserves (keeps index) (CS.propagateTopDown P log_enabled cs callerR calleeR).
Proof. cs_preserves. Qed.

Lemma propagateBottomUp_index cs calleeR callerR :
  preserves (keeps index) (CS.propagateBottomUp log_enabled cs calleeR callerR).
Proof. cs_preserves. Qed.

(** ** Reading the decision *)

Lemma readG_Done r (s : State) g s' :
  CS.readG r s = Done g s' ↔ CS.store s !! r = Some g ∧ s' = s.
Proof.
  unfold CS.readG. rewrite bind_Done. split.
  - intros (? & ? & [-> ->]%get_Done & ?%must_Done). done.
  - intros [? ->]. exists s, s. by rewrite get_Done, must_Done.
Qed.

Lemma decideM_Done cs calleeR callerR (s : State) k s' :
  CS.decideM cs calleeR callerR s = Done k s' ↔
  s' = s ∧ ∃ calleeG callerG,
    CS.store s !! calleeR = Some calleeG ∧
    CS.store s !! callerR = Some callerG ∧
    k = decidePropagation cs calleeG callerG.
Proof.
  unfold CS.decideM. rewrite bind_Done. split.
  - intros (calleeG & s1 & [E1 ->]%readG_Done & H1).
    apply bind_Done in H1 as (callerG & s2 & [E2 ->]%readG_Done & H2).
    apply ret_Done in H2 as [<- <-]. eauto 6.
  - intros (-> & calleeG & callerG & ? & ? & ->).
    exists calleeG, s. rewrite readG_Done. split; [done|].
    apply bind_Done. exists callerG, s. by rewrite readG_Done, ret_Done.
Qed.

End CS_facts.


(** ** One iteration of the loop *)

Section CS_iteration.
Context `{L : DsaLib}.
Variable P : Program.
Variable log_enabled : bool.

Local Abbreviation State := (@CS.State L).

Lemma elem_of_foldl_Insert (l : list Instruction) (w : Worklist) x :
  x ∈ foldl Insert w l ↔ x ∈ w ∨ x ∈ l.
Proof.
  revert w. induction l as [|y l IH]; intros w; simpl.
  - rewrite elem_of_nil. naive_solver.
  - rewrite IH, elem_of_Insert, elem_of_cons. naive_solver.
Qed.

Lemma NoDup_foldl_Insert (l : list Instruction) (w : Worklist) :
  NoDup w → NoDup (foldl Insert w l).
Proof.
  revert w. induction l as [|y l IH]; intros w Hw; simpl; [done|].
  by apply IH, NoDup_Insert.
Qed.

Lemma insert_all_Done idx fn w (s : State) w' s' :
  CS.insert_all idx fn w s = Done w' s' ↔
  ∃ set, idx !! fn = Some set ∧ w' = foldl Insert w (elements set) ∧ s' = s.
Proof.
  unfold CS.insert_all. rewrite bind_Done. split.
  - intros (set & s1 & [E ->]%must_Done & [<- <-]%ret_Done). eauto.
  - intros (set & E & -> & ->). exists set, s. by rewrite must_Done, ret_Done.
Qed.

Lemma reinsert_Done fn (w : Worklist) (td bu : N) (s : State) r s' :
  (s0 ← get;
   w ← CS.insert_all (CS.m_uses s0) fn w;
   w ← CS.insert_all (CS.m_defs s0) fn w;
   mret (w, td, bu)) s = Done r s' →
  s' = s ∧ ∃ w', r = (w', td, bu) ∧ reinserted s fn w w'.
Proof.
  intros H.
  apply bind_Done in H as (s0 & s1 & [-> ->]%get_Done & H1).
  apply bind_Done in H1 as (w1 & s1 & (uses & Eu & -> & ->)%insert_all_Done & H2).
  apply bind_Done in H2 as (w2 & s2 & (defs & Ed & -> & ->)%insert_all_Done & H3).
  apply ret_Done in H3 as [<- <-]. split; [done|].
  eexists. split; [done|]. exists uses, defs. split_and!; [done..|].
  intros cs. rewrite !elem_of_foldl_Insert, !elem_of_elements. naive_solver.
Qed.

Lemma iteration_Done cs w td bu (s : State) w' td' bu' s' :
  CS.iteration P log_enabled cs w td bu s = Done (w', td', bu') s' →
  isInlineAsm P cs = false →
  skipped P (getCallee P cs) = false →
  ∃ k, kind_at P s cs = Some k ∧
    match k with
    | DOWN =>
      ∃ callee, getCallee P cs = Some callee ∧ reinserted s callee w w' ∧
                td' = incr td ∧ bu' = bu
    | UP =>
      ∃ caller, getCaller P cs = Some caller ∧ reinserted s caller w w' ∧
                td' = td ∧ bu' = incr bu
    | NONE => w' = w ∧ td' = td ∧ bu' = bu
    end.
Proof.
  unfold CS.iteration. intros H Ha Hs. rewrite Ha, Hs in H.
  apply bind_Done in H as (s0 & s1 & [-> ->]%get_Done & H1).
  apply bind_Done in H1 as ([] & s1 & [_ ->]%assert_Done & H2).
  apply bind_Done in H2 as ([] & s1 & [_ ->]%assert_Done & H3).
  apply bind_Done in H3 as (callerR & s1 & [Ecaller ->]%must_Done & H4).
  apply bind_Done in H4 as (calleeR & s1 & [Ecallee ->]%must_Done & H5).
  apply bind_Done in H5 as (k & s1 & Hk & H6).
  apply decideM_Done in Hk as (-> & calleeG & callerG & EGe & EGr & Hk).
  exists k. split.
  { unfold kind_at. rewrite Ecaller, Ecallee. simpl. rewrite EGe. simpl.
    rewrite EGr. simpl. by rewrite Hk. }
  clear Hk. destruct k; simpl in H6.
  - apply bind_Done in H6 as ([] & s2 & Htd & H7).
    apply (preserves_Done _ _ _ _ _ (propagateTopDown_index _ _ _ _ _)) in Htd.
    destruct (getCallee P cs) as [callee|] eqn:Ec; [|done].
    exists callee. split; [done|].
    apply reinsert_Done in H7 as (-> & w'' & [= <- <- <-] & Hre).
    split; [|done]. unfold reinserted, keeps, index in *.
    injection Htd as E1 E2 E3. by rewrite E2, E3.
  - apply bind_Done in H6 as ([] & s2 & Hbu & H7).
    apply (preserves_Done _ _ _ _ _ (propagateBottomUp_index _ _ _ _)) in Hbu.
    destruct (getCaller P cs) as [caller|] eqn:Ec; [|done].
    exists caller. split; [done|].
    apply reinsert_Done in H7 as (-> & w'' & [= <- <- <-] & Hre).
    split; [|done]. unfold reinserted, keeps, index in *.
    injection Hbu as E1 E2 E3. by rewrite E2, E3.
  - by apply ret_Done in H6 as [[= <- <- <-] <-].
Qed.
End CS_iteration.

(** C2 (as amended).  An iteration that finds [DOWN] re-inserts, without
    duplicating a pending call site, every call site of the use set and of
    the def set of the callee, whose graph the top-down propagation
    changed; one that finds [UP] re-inserts those of the caller, whose graph
    the bottom-up propagation changed.  No pending call site is lost. *)
Theorem iteration_reinserts `{L : DsaLib} (P : Program) (log_enabled : bool)
    (cs : Instruction) (w : Worklist) (td bu : N) (s : CS.State)
    (w' : Worklist) (td' bu' : N) (s' : CS.State) :
  CS.iteration P log_enabled cs w td bu s = Done (w', td', bu') s' →
  isInlineAsm P cs = false →
  skipped P (getCallee P cs) = false →
  (kind_at P s cs = Some DOWN →
   ∃ callee, getCallee P cs = Some callee ∧ reinserted s callee w w') ∧
  (kind_at P s cs = Some UP →
   ∃ caller, getCaller P cs = Some caller ∧ reinserted s caller w w') ∧
  (∀ x, x ∈ w → x ∈ w') ∧
  (NoDup w → NoDup w').
Proof.
  intros Hrun Hasm Hskip.
  destruct (iteration_Done _ _ _ _ _ _ _ _ _ _ _ Hrun Hasm Hskip)
    as (k & Hk & Hcase).
  rewrite Hk. destruct k.
  - destruct Hcase as (callee & Ec & Hre & _). split_and!; [eauto|done|..];
      destruct Hre as (uses & defs & _ & _ & -> & Hin).
    + intros x Hx. apply Hin. by left.
    + intros Hw. by do 2 apply NoDup_foldl_Insert.
  - destruct Hcase as (caller & Ec & Hre & _). split_and!; [done|eauto|..];
      destruct Hre as (uses & defs & _ & _ & -> & Hin).
    + intros x Hx. apply Hin. by left.
    + intros Hw. by do 2 apply NoDup_foldl_Insert.
  - destruct Hcase as (-> & _). done.
Qed.

(** C2, as first stated, fails: popping the call [f (q, q)] of [main] finds
    [DOWN]; the call [h (null)] is in the def set of the caller [main], and
    it is not in the worklist after the iteration, which holds the use and
    def sets of the callee [f]. *)
Lemma iteration_down_leaves_caller_sets :
  kind_at Demo.prog demo_ready Demo.call_f_qq = Some DOWN ∧
  getCaller Demo.prog Demo.call_f_qq = Some Demo.main ∧
  (∃ defs, CS.m_defs demo_ready !! Demo.main = Some defs ∧
           Demo.call_h_null ∈ defs) ∧
  ∃ s',
    CS.iteration Demo.prog false Demo.call_f_qq [Demo.call_f_pp] 0 0 demo_ready
    = Done ([Demo.call_f_pp; Demo.call_f_qq; Demo.call_f_pq; Demo.call_g_a],
            1%N, 0%N) s' ∧
    Demo.call_h_null ∉
      [Demo.call_f_pp; Demo.call_f_qq; Demo.call_f_pq; Demo.call_g_a].
Proof.
  split_and!.
  - vm_compute. reflexivity.
  - vm_compute. reflexivity.
  - exists {[Demo.call_f_pp; Demo.call_h_null; Demo.call_f_pq;
             Demo.call_f_qq]}.
    split; [vm_compute; reflexivity | set_solver].
  - exists (final (CS.iteration Demo.prog false Demo.call_f_qq
                     [Demo.call_f_pp] 0 0 demo_ready)).
    split; [apply Done_result; vm_compute; reflexivity|].
    intros H. repeat (apply elem_of_cons in H as [H|H]; [done|]).
    by apply elem_of_nil in H.
Qed.

Lemma iteration_reinserts_witness :
  let run := CS.iteration Demo.prog false Demo.call_f_qq [Demo.call_f_pp]
               0 0 demo_ready in
  ∃ w' s', run = Done (w', 1%N, 0%N) s' ∧
    ∃ callee, getCallee Demo.prog Demo.call_f_qq = Some callee ∧
              reinserted demo_ready callee [Demo.call_f_pp] w'.
Proof.
  exists [Demo.call_f_pp; Demo.call_f_qq; Demo.call_f_pq; Demo.call_g_a].
  exists (final (CS.iteration Demo.prog false Demo.call_f_qq
                   [Demo.call_f_pp] 0 0 demo_ready)).
  assert (E : CS.iteration Demo.prog false Demo.call_f_qq [Demo.call_f_pp]
                0 0 demo_ready
              = Done ([Demo.call_f_pp; Demo.call_f_qq; Demo.call_f_pq;
                       Demo.call_g_a], 1%N, 0%N)
                  (final (CS.iteration Demo.prog false Demo.call_f_qq
                            [Demo.call_f_pp] 0 0 demo_ready)))
    by (apply Done_result; vm_compute; reflexivity).
  split; [exact E|].
  apply (iteration_reinserts _ _ _ _ _ _ _ _ _ _ _ E);
    vm_compute; reflexivity.
Defined.

(** ** The ghost log of the clone-and-resolve helper *)

Section CS_trace.
Context `{L : DsaLib}.
Variable P : Program.

Local Abbreviation State := (@CS.State L).

Lemma emits_keeps {A} (m : M State A) :
  preserves (keeps CS.trace) m → emits m [].
Proof.
  intros Hm s a s' Hrun. apply (preserves_Done _ _ _ _ _ Hm) in Hrun.
  unfold keeps in Hrun. by rewrite app_nil_r.
Qed.

Lemma emits_bind {A B} (m : M State A) (k : A → M State B) t1 t2 :
  emits m t1 → (∀ a, emits (k a) t2) → emits (m ≫= k) (t1 ++ t2).
Proof.
  intros Hm Hk s b s' (a & s1 & H1 & H2)%bind_Done.
  rewrite (Hk _ _ _ _ H2), (Hm _ _ _ H1). by rewrite app_assoc.
Qed.

Lemma emits_ret {A} (a : A) : emits (mret a : M State A) [].
Proof. intros s b s' [_ <-]%ret_Done. by rewrite app_nil_r. Qed.

Lemma emits_log_step e : emits (CS.log_step e) [e].
Proof. intros s [] s' ->%modify_Done. done. Qed.

Lemma emits_foldM {A C} (body : C → A → M State C) (step : A → Step) c l :
  (∀ c x, emits (body c x) [step x]) → emits (foldM body c l) (step <$> l).
Proof.
  intros Hb. revert c. induction l as [|x l IH]; intros c; simpl.
  - apply emits_ret.
  - apply (emits_bind _ _ [step x]); auto.
Qed.

End CS_trace.

Ltac emits_go :=
  repeat first
    [ match goal with |- ∀ _, _ => intro end
    | apply emits_log_step
    | apply emits_ret
    | (apply emits_keeps; solve [cs_preserves])
    | eapply emits_bind
    | match goal with
      | |- emits (let '(_, _) := ?e in _) _ => destruct e
      | |- emits (match ?e with _ => _ end) _ => destruct e
      end ].

Section CS_clone_log.
Context `{L : DsaLib}.
Variable P : Program.

Local Abbreviation State := (@CS.State L).

Lemma emits_eq {A} (m : M State A) t t' : emits m t → t = t' → emits m t'.
Proof. by intros ? <-. Qed.

Lemma clone_global_emits callerR calleeR C kv :
  emits (CS.clone_global callerR calleeR C kv) [StepGlobal kv.1].
Proof.
  eapply emits_eq; [unfold CS.clone_global; emits_go | reflexivity].
Qed.

Lemma clone_return_trace cs callee callerR calleeR C (s : State) C' s' :
  CS.clone_return cs callee callerR calleeR C s = Done C' s' →
  CS.trace s' = CS.trace s ++
    if both_have_return cs callee callerR calleeR s then [StepRet callee]
    else [].
Proof.
  unfold CS.clone_return, both_have_return. intros H.
  apply bind_Done in H as (calleeG & s1 & [-> ->]%readG_Done & H).
  apply bind_Done in H as (callerG & s1 & [-> ->]%readG_Done & H).
  destruct (hasRetCell calleeG callee && hasCell callerG cs).
  - revert H. match goal with |- ?m s = _ → _ =>
      assert (Hem : emits m [StepRet callee])
        by (eapply emits_eq; [emits_go | reflexivity]) end.
    apply Hem.
  - apply ret_Done in H as [_ <-]. by rewrite app_nil_r.
Qed.

Lemma clone_argument_cases callerR calleeR C fml arg (s : State) C' s' :
  CS.clone_argument callerR calleeR C fml arg s = Done C' s' →
  if both_have_cells callerR calleeR s arg fml
  then CS.trace s' = CS.trace s ++ [StepArg arg fml]
  else C' = C ∧ s' = s.
Proof.
  unfold CS.clone_argument, both_have_cells. intros H.
  apply bind_Done in H as (callerG & s1 & [-> ->]%readG_Done & H).
  apply bind_Done in H as (calleeG & s1 & [-> ->]%readG_Done & H).
  destruct (hasCell callerG arg && hasCell calleeG fml).
  - revert H. match goal with |- ?m s = _ → _ =>
      assert (Hem : emits m [StepArg arg fml])
        by (eapply emits_eq; [emits_go | reflexivity]) end.
    apply Hem.
  - by apply ret_Done in H as [-> ->].
Qed.

Lemma foldM2_clone_argument callerR calleeR C fmls acts (s : State) C' s' :
  foldM2 (CS.clone_argument callerR calleeR) C fmls acts s = Done C' s' →
  ∃ t, args_pass callerR calleeR C s (zip acts fmls) t ∧
       CS.trace s' = CS.trace s ++ t.
Proof.
  revert C acts s. induction fmls as [|fml fmls IH]; intros C [|arg acts] s H;
    simpl in H.
  1-3: apply ret_Done in H as [_ <-]; exists []; rewrite app_nil_r;
       split; [constructor | done].
  apply bind_Done in H as (C1 & s1 & H1 & H2).
  destruct (IH _ _ _ H2) as (t & Hpass & Ht). simpl.
  pose proof (clone_argument_cases _ _ _ _ _ _ _ _ H1) as Hc.
  destruct (both_have_cells callerR calleeR s arg fml) eqn:Hg.
  - exists (StepArg arg fml :: t). split; [by econstructor|].
    rewrite Ht, Hc. by rewrite <- app_assoc.
  - destruct Hc as [-> ->]. exists t. split; [by constructor|done].
Qed.

Lemma args_pass_sublist callerR calleeR C (s : State) l t :
  args_pass callerR calleeR C s l t →
  t `sublist_of` (λ p, StepArg p.1 p.2) <$> l.
Proof.
  induction 1; simpl; [done | by apply sublist_cons | by apply sublist_skip].
Qed.

End CS_clone_log.




(** ** The sanity check *)

Section Scans.
Context {St A R : Type}.

Lemma for_each_until_app (l1 l2 : list A) (body : A → M St (option R)) s :
  for_each_until (l1 ++ l2) body s =
  (r ← for_each_until l1 body;
   match r with
   | Some v => mret (Some v)
   | None => for_each_until l2 body
   end) s.
Proof.
  revert s. induction l1 as [|x l1 IH]; intros s; simpl; [done|].
  unfold mbind, M_bind, bind. destruct (body x s) as [[v|] s1| |]; auto.
Qed.

Lemma for_each_until_concat (l : list (list A))
    (body : A → M St (option R)) s :
  for_each_until l (λ x, for_each_until x body) s =
  for_each_until (concat l) body s.
Proof.
  revert s. induction l as [|x l IH]; intros s; simpl; [done|].
  rewrite for_each_until_app. unfold mbind, M_bind, bind.
  destruct (for_each_until x body s) as [[v|] s1| |]; auto.
Qed.

Lemma for_each_until_filter (keep : A → Prop) `{!∀ x, Decision (keep x)}
    (l : list A) (body : A → M St (option R)) s :
  (∀ x s, ¬ keep x → body x s = Done None s) →
  for_each_until l body s = for_each_until (filter keep l) body s.
Proof.
  intros Hskip. revert s. induction l as [|x l IH]; intros s; simpl; [done|].
  destruct (decide (keep x)) as [Hk|Hk].
  - rewrite filter_cons_True by done. simpl.
    unfold mbind, M_bind, bind. destruct (body x s) as [[v|] s1| |]; auto.
  - rewrite filter_cons_False by done.
    rewrite (bind_Done_eq _ _ _ _ _ (Hskip _ _ Hk)). apply IH.
Qed.

(** a scan that stops at the first element whose body returns *)
Lemma for_each_until_scan (ok : A → Prop) (bad : A → R → St → Prop)
    (l : list A) (body : A → M St (option R)) s r s' :
  (∀ x r s', x ∈ l → body x s = Done r s' →
     match r with None => s' = s ∧ ok x | Some v => bad x v s' end) →
  for_each_until l body s = Done r s' →
  match r with
  | None => s' = s ∧ Forall ok l
  | Some v => ∃ l1 x l2, l = l1 ++ x :: l2 ∧ Forall ok l1 ∧ bad x v s'
  end.
Proof.
  induction l as [|x l IH]; intros Hb H; simpl in H.
  - by apply ret_Done in H as [<- <-].
  - apply bind_Done in H as (r1 & s1 & H1 & H2).
    apply Hb in H1; [|by left]. destruct r1 as [v|].
    + apply ret_Done in H2 as [<- <-]. exists [], x, l. done.
    + destruct H1 as [-> Hx].
      apply IH in H2; [|intros; apply Hb; [by right|done]].
      destruct r as [v|].
      * destruct H2 as (l1 & y & l2 & -> & Hl1 & Hbad).
        exists (x :: l1), y, l2. split_and!; [done|by constructor|done].
      * destruct H2 as [-> Hl]. split; [done|by constructor].
Qed.
End Scans.

Section CS_check.
Context `{L : DsaLib}.
Variable P : Program.

Local Abbreviation State := (@CS.State L).

Lemma check_callsite_Done cs (s : State) r s' :
  skipped P (getCallee P cs) = false →
  CS.check_callsite P cs s = Done r s' →
  ∃ k, kind_at P s cs = Some k ∧
       if bool_decide (k = NONE) then r = None ∧ s' = s
       else r = Some false ∧ s' = said (MsgCheckFailed cs (CS.pkind_str k)) s.
Proof.
  unfold CS.check_callsite. intros -> H.
  apply bind_Done in H as (s0 & s1 & [-> ->]%get_Done & H1).
  apply bind_Done in H1 as ([] & s1 & [_ ->]%assert_Done & H2).
  apply bind_Done in H2 as ([] & s1 & [_ ->]%assert_Done & H3).
  apply bind_Done in H3 as (callerR & s1 & [Ecaller ->]%must_Done & H4).
  apply bind_Done in H4 as (calleeR & s1 & [Ecallee ->]%must_Done & H5).
  apply bind_Done in H5 as (k & s1 & Hk & H6).
  apply decideM_Done in Hk as (-> & calleeG & callerG & EGe & EGr & Hk).
  exists k. split.
  { unfold kind_at. rewrite Ecaller, Ecallee. simpl. rewrite EGe. simpl.
    rewrite EGr. simpl. by rewrite Hk. }
  clear Hk. destruct (decide (k = NONE)) as [->|Hne].
  - simpl in H6. by apply ret_Done in H6 as [<- <-].
  - rewrite (bool_decide_eq_false_2 _ Hne).
    rewrite (bool_decide_eq_true_2 _ Hne) in H6.
    apply bind_Done in H6 as ([] & s2 & ->%modify_Done & [<- <-]%ret_Done).
    done.
Qed.

Lemma check_nodes_flat (nodes : list CallGraphNode) (s : State) :
  for_each_until nodes (CS.check_node P) s =
  for_each_until
    (filter (λ cgn, skipped P (getFunction cgn) = false) nodes ≫= callRecords)
    (CS.check_callsite P) s.
Proof.
  revert s. induction nodes as [|cgn nodes IH]; intros s; simpl; [done|].
  destruct (skipped P (getFunction cgn)) eqn:Hskip.
  - assert (E : CS.check_node P cgn s = Done None s)
      by (unfold CS.check_node; by rewrite Hskip).
    rewrite (bind_Done_eq _ _ _ _ _ E).
    rewrite filter_cons_False by (by rewrite Hskip). apply IH.
  - assert (E : CS.check_node P cgn =
                for_each_until (callRecords cgn) (CS.check_callsite P))
      by (unfold CS.check_node; by rewrite Hskip).
    rewrite E, filter_cons_True by done. simpl.
    rewrite for_each_until_app. unfold mbind, M_bind, bind.
    destruct (for_each_until (callRecords cgn) _ s) as [[v|] s1| |];
      [done | apply IH | done..].
Qed.

Lemma check_scan_flat (s : State) :
  for_each_until (sccs P) (λ scc, for_each_until scc (CS.check_node P)) s =
  for_each_until (resolvable_callsites P) (CS.check_callsite P) s.
Proof.
  rewrite for_each_until_concat, check_nodes_flat. unfold resolvable_callsites.
  apply for_each_until_filter. intros cs s0 Hskip. unfold CS.check_callsite.
  by destruct (skipped P (getCallee P cs)).
Qed.

(** what a completed check found *)
Lemma checkNoMorePropagation_Done (s : State) b s' :
  CS.checkNoMorePropagation P s = Done b s' →
  if b then
    Forall (λ cs, kind_at P s cs = Some NONE) (resolvable_callsites P) ∧
    s' = said MsgCheckSucceed s
  else
    ∃ scanned cs rest k,
      resolvable_callsites P = scanned ++ cs :: rest ∧
      Forall (λ cs, kind_at P s cs = Some NONE) scanned ∧
      kind_at P s cs = Some k ∧ k ≠ NONE ∧
      s' = said (MsgCheckFailed cs (CS.pkind_str k)) s.
Proof.
  unfold CS.checkNoMorePropagation. intros H.
  apply bind_Done in H as (r & s1 & Hscan & H). rewrite check_scan_flat in Hscan.
  apply (for_each_until_scan
           (λ cs, kind_at P s cs = Some NONE)
           (λ cs v s', v = false ∧ ∃ k, kind_at P s cs = Some k ∧ k ≠ NONE ∧
                       s' = said (MsgCheckFailed cs (CS.pkind_str k)) s))
    in Hscan.
  - destruct r as [v|].
    + destruct Hscan as (scanned & cs & rest & El & Hok & -> & k & Hk & Hne & ->).
      apply ret_Done in H as [<- <-]. by exists scanned, cs, rest, k.
    + destruct Hscan as [-> Hok].
      apply bind_Done in H as ([] & s2 & ->%modify_Done & [<- <-]%ret_Done).
      done.
  - intros cs r0 s0 Hin Hrun.
    apply list_elem_of_filter in Hin as [Hskip _].
    destruct (check_callsite_Done _ _ _ _ Hskip Hrun) as (k & Hk & Hcase).
    case_bool_decide as Hn.
    + destruct Hcase as [-> ->]. by subst k.
    + destruct Hcase as [-> ->]. eauto.
Qed.

Lemma assert_check_Abort (s : State) s' :
  CS.checkNoMorePropagation P s = Done false s' →
  CS.assert_checkNoMorePropagation P s = Abort s'.
Proof.
  intros H. unfold CS.assert_checkNoMorePropagation.
  by rewrite (bind_Done_eq _ _ _ _ _ H).
Qed.

End CS_check.

(** C4 (as amended).  The sanity check scans the resolvable call sites in
    the order of the SCC walk and stops at the first one for which
    [decidePropagation] is not [NONE]: it reports that call site alone, with
    the direction it requires, and returns false, and the assertion on the
    check then aborts the run.  When every resolvable call site is
    consistent it reports success and returns true. *)
Theorem checkNoMorePropagation_first_failure `{L : DsaLib} (P : Program)
    (s : CS.State) (b : bool) (s' : CS.State) :
  CS.checkNoMorePropagation P s = Done b s' →
  (b = true →
   Forall (λ cs, kind_at P s cs = Some NONE) (resolvable_callsites P) ∧
   s' = said MsgCheckSucceed s) ∧
  (b = false →
   (∃ scanned cs rest k,
      resolvable_callsites P = scanned ++ cs :: rest ∧
      Forall (λ cs, kind_at P s cs = Some NONE) scanned ∧
      kind_at P s cs = Some k ∧ k ≠ NONE ∧
      s' = said (MsgCheckFailed cs (CS.pkind_str k)) s) ∧
   CS.assert_checkNoMorePropagation P s = Abort s').
Proof.
  intros H. pose proof (checkNoMorePropagation_Done _ _ _ _ H) as Hd.
  split; intros ->; [done|]. split; [done|]. by apply assert_check_Abort.
Qed.

(** C4, as first stated, fails: with a bottom-up pass that leaves the two
    calls [f (p, p)] and [f (q, q)] in need of top-down propagation, the
    check reports the first call only, and the run is aborted. *)
Lemma checkNoMorePropagation_stops_and_aborts :
  let run := CS.runOnModule (L := Demo.lazy_lib) Demo.prog false 10 CS.init in
  ∃ s', run = Abort s' ∧
        CS.errs s' = [MsgCheckFailed Demo.call_f_pp "top-down"] ∧
        Demo.call_f_qq ∈ resolvable_callsites Demo.prog ∧
        kind_at Demo.prog s' Demo.call_f_qq = Some DOWN.
Proof.
  exists (final (CS.runOnModule (L := Demo.lazy_lib) Demo.prog false 10
                   CS.init)).
  split_and!.
  - apply Abort_aborted. vm_compute. reflexivity.
  - vm_compute. reflexivity.
  - vm_compute. do 4 apply list_elem_of_further. apply list_elem_of_here.
  - vm_compute. reflexivity.
Qed.

Lemma checkNoMorePropagation_first_failure_witness :
  ∃ s', CS.checkNoMorePropagation Demo.prog demo_lazy_ready = Done false s' ∧
        CS.assert_checkNoMorePropagation Demo.prog demo_lazy_ready = Abort s'.
Proof.
  exists (final (CS.checkNoMorePropagation Demo.prog demo_lazy_ready)).
  assert (E : CS.checkNoMorePropagation Demo.prog demo_lazy_ready
              = Done false
                  (final (CS.checkNoMorePropagation Demo.prog demo_lazy_ready)))
    by (apply Done_result; vm_compute; reflexivity).
  split; [exact E|].
  apply (checkNoMorePropagation_first_failure _ _ _ _ E). reflexivity.
Defined.

(** * The result of the runs *)

Section Fuel.
Context {St : Type}.

Lemma fuel_free_ret {A} (a : A) : fuel_free (mret a : M St A).
Proof. done. Qed.

Lemma fuel_free_bind {A B} (m : M St A) (k : A → M St B) :
  fuel_free m → (∀ a, fuel_free (k a)) → fuel_free (m ≫= k).
Proof.
  intros Hm Hk s s'. unfold mbind, M_bind, bind.
  specialize (Hm s). destruct (m s) as [a s1| |s1]; [apply Hk|done|].
  by destruct (Hm s1).
Qed.

Lemma fuel_free_get : fuel_free (get : M St St).
Proof. done. Qed.

Lemma fuel_free_modify (f : St → St) : fuel_free (modify f).
Proof. done. Qed.

Lemma fuel_free_abort {A} : fuel_free (abort : M St A).
Proof. done. Qed.

Lemma fuel_free_must {A} (o : option A) : fuel_free (must o : M St A).
Proof. by destruct o. Qed.

Lemma fuel_free_assert b : fuel_free (assert b : M St unit).
Proof. by destruct b. Qed.

Lemma fuel_free_when b (m : M St unit) : fuel_free m → fuel_free (when b m).
Proof. by destruct b. Qed.

Lemma fuel_free_for_each {A} (l : list A) (body : A → M St unit) :
  (∀ x, fuel_free (body x)) → fuel_free (for_each l body).
Proof.
  intros Hb. induction l as [|x l IH]; simpl; [done|].
  apply fuel_free_bind; auto.
Qed.

Lemma fuel_free_for_each2 {A B} (fs : list A) (acts : list B)
    (body : A → B → M St unit) :
  (∀ x y, fuel_free (body x y)) → fuel_free (for_each2 fs acts body).
Proof.
  intros Hb. revert acts. induction fs as [|x fs IH]; intros [|y acts]; simpl;
    try done.
  apply fuel_free_bind; auto.
Qed.

End Fuel.

Ltac fuel_free_go :=
  repeat first
    [ match goal with |- ∀ _, _ => intro end
    | lazymatch goal with
      | |- fuel_free (mret _) => apply fuel_free_ret
      | |- fuel_free (ret _) => apply fuel_free_ret
      | |- fuel_free (_ ≫= _) => apply fuel_free_bind
      | |- fuel_free get => apply fuel_free_get
      | |- fuel_free (modify _) => apply fuel_free_modify
      | |- fuel_free abort => apply fuel_free_abort
      | |- fuel_free (must _) => apply fuel_free_must
      | |- fuel_free (assert _) => apply fuel_free_assert
      | |- fuel_free (when _ _) => apply fuel_free_when
      | |- fuel_free (for_each _ _) => apply fuel_free_for_each
      | |- fuel_free (for_each2 _ _ _) => apply fuel_free_for_each2
      | |- fuel_free (CI.on_graph _) => apply on_graph_fuel_free
      | |- fuel_free (let '(_, _) := ?e in _) => destruct e
      | |- fuel_free (match ?e with _ => _ end) => destruct e
      | |- fuel_free (if ?e then _ else _) => destruct e
      end ].

Section Graph_map.
Context `{L : DsaLib}.
Variable P : Program.
Variable log_enabled : bool.

Local Abbreviation State := (@CS.State L).

Lemma CI_mkCellM_fuel_free v : fuel_free (CI.mkCellM v).
Proof. intros g g'. unfold CI.mkCellM. by destruct (mkCell g v). Qed.

Lemma CI_runOnModule_fuel_free : fuel_free (CI.runOnModule P log_enabled).
Proof.
  unfold CI.runOnModule, CI.run_scc, CI.import_scc_member,
    CI.resolve_scc_member, CI.resolveArguments, CI.LOG, CI.say, CI.set_graph,
    CI.insert_fn.
  fuel_free_go; apply CI_mkCellM_fuel_free.
Qed.

Lemma CI_runOnModule_false (s : CI.State) b s' :
  CI.runOnModule P log_enabled s = Done b s' → b = false.
Proof. by intros [-> _]%runOnModule_Done. Qed.

Global Instance graphs_kept_preorder : PreOrder graphs_kept.
Proof.
  split; [intros s F H; exact H | intros s1 s2 s3 H1 H2 F H; eauto].
Qed.

Lemma preserves_weaken {St A} (R R' : relation St) (m : M St A) :
  (∀ s s', R s s' → R' s s') → preserves R m → preserves R' m.
Proof. intros HR Hm s. apply HR, Hm. Qed.

Lemma index_graphs_kept (s s' : State) : keeps index s s' → graphs_kept s s'.
Proof. unfold keeps, index. intros [= E _ _] F. by rewrite E. Qed.

Lemma but_errs_graphs_kept (s s' : State) :
  keeps but_errs s s' → graphs_kept s s'.
Proof. unfold keeps, but_errs. intros [= E _ _ _ _] F. by rewrite E. Qed.

Lemma new_graph_kept F : preserves graphs_kept (CS.new_graph F).
Proof.
  apply preserves_modify. intros s F' H. simpl.
  apply lookup_insert_is_Some. destruct (decide (F = F')); auto.
Qed.

Lemma new_graphs_all (l : list Function) (s : State) s' :
  for_each l CS.new_graph s = Done tt s' →
  ∀ F, F ∈ l → is_Some (CS.m_graphs s' !! F).
Proof.
  revert s. induction l as [|F0 l IH]; intros s H F HF; simpl in H.
  - by apply elem_of_nil in HF.
  - apply bind_Done in H as ([] & s1 & H1 & H2).
    apply elem_of_cons in HF as [->|HF]; [|by eapply IH].
    apply (preserves_Done graphs_kept _ _ _ _
             (preserves_for_each _ _ _ new_graph_kept)) in H2.
    apply H2. apply modify_Done in H1 as ->. simpl.
    rewrite lookup_insert_eq. eauto.
Qed.

Lemma bottomUp_kept :
  bu_keeps_functions P → preserves graphs_kept (CS.bottomUp P).
Proof.
  intros Hbu s F H. unfold CS.bottomUp.
  specialize (Hbu (CS.m_graphs s) (CS.store s) F H).
  by destruct (bu_runOnModule P (CS.m_graphs s) (CS.store s)) as [[? ?] ?].
Qed.

Lemma buildIndexes_kept : preserves graphs_kept (CS.buildIndexes P).
Proof.
  apply (preserves_weaken (keeps CS.m_graphs)).
  { unfold keeps. intros s s' E F. by rewrite E. }
  unfold CS.buildIndexes, CS.store_uses_defs. cs_preserves.
Qed.

Lemma loop_kept fuel w td bu :
  preserves graphs_kept (CS.loop P log_enabled fuel w td bu).
Proof.
  apply (preserves_weaken (keeps index)), loop_index. apply index_graphs_kept.
Qed.

Lemma messages_kept {A} (m : M State A) :
  preserves (keeps but_errs) m → preserves graphs_kept m.
Proof. apply preserves_weaken, but_errs_graphs_kept. Qed.

Lemma CS_runOnModule_stages fuel (s : State) b s' :
  CS.runOnModule P log_enabled fuel s = Done b s' →
  b = false ∧
  ∃ s0 s1 s2 s3 w,
    for_each (functions P) CS.new_graph s0 = Done tt s1 ∧
    CS.bottomUp P s1 = Done w s2 ∧
    CS.buildIndexes P s2 = Done tt s3 ∧
    graphs_kept s3 s'.
Proof.
  unfold CS.runOnModule. intros H.
  apply bind_Done in H as ([] & s0 & H0 & H).
  apply bind_Done in H as (w & s3 & Hinit & H).
  unfold CS.initialize in Hinit.
  apply bind_Done in Hinit as ([] & s1 & Hnew & Hinit).
  apply bind_Done in Hinit as (mappings & s2 & Hbu & Hinit).
  apply bind_Done in Hinit as ([] & s3' & Hidx & [_ ->]%ret_Done).
  assert (Hb : b = false).
  { apply bind_Done in H as ([td bu] & s4 & H4 & H).
    apply bind_Done in H as ([] & s5 & H5 & H).
    apply bind_Done in H as ([] & s6 & H6 & H).
    apply bind_Done in H as ([] & s7 & H7 & H).
    apply bind_Done in H as ([] & s8 & H8 & H).
    by apply ret_Done in H as [<- _]. }
  split; [done|]. exists s0, s1, s2, s3, mappings. split_and!; [done..|].
  revert H. match goal with |- ?m s3 = _ → _ =>
    assert (Hk : preserves graphs_kept m) end.
  { preserves_go; try apply loop_kept; apply messages_kept; cs_preserves. }
  apply (preserves_Done _ _ _ _ _ Hk).
Qed.

End Graph_map.

(** C10.  After the context-sensitive run, [hasGraph (F)] holds for every
    function [F] of the module, declarations and functions without a body
    included: each of them was given a fresh graph before the bottom-up
    pass, and what follows removes no entry of the graph map (the bottom-up
    pass is assumed not to remove one either). *)
Theorem CS_hasGraph_every_function `{L : DsaLib} (P : Program)
    (log_enabled : bool) (fuel : nat) (s : CS.State) (b : bool)
    (s' : CS.State) :
  bu_keeps_functions P →
  CS.runOnModule P log_enabled fuel s = Done b s' →
  ∀ F, F ∈ functions P → CS.hasGraph s' F = true.
Proof.
  intros Hbu (_ & s0 & s1 & s2 & s3 & w & Hnew & Hb & Hidx & Hkept)%
    CS_runOnModule_stages F HF.
  unfold CS.hasGraph. apply bool_decide_eq_true. apply Hkept.
  apply (preserves_Done _ _ _ _ _ (buildIndexes_kept _)) in Hidx. apply Hidx.
  apply (preserves_Done _ _ _ _ _ (bottomUp_kept _ Hbu)) in Hb. apply Hb.
  by eapply new_graphs_all.
Qed.

Section Budget.
Context `{L : DsaLib}.
Variable P : Program.
Variable log_enabled : bool.

Local Abbreviation State := (@CS.State L).

(** a loop that has ended within a budget ends the same way within any
    larger one *)
Lemma loop_mono fuel fuel' w td bu (s : State) r s' :
  fuel ≤ fuel' →
  CS.loop P log_enabled fuel w td bu s = Done r s' →
  CS.loop P log_enabled fuel' w td bu s = Done r s'.
Proof.
  revert fuel' w td bu s.
  induction fuel as [|fuel IH]; intros fuel' w td bu s Hle H.
  - destruct fuel'; simpl in *; destruct (back w); done.
  - destruct fuel' as [|fuel']; [lia|]. simpl in *.
    destruct (back w) as [cs|]; [|done].
    apply bind_Done in H as ([[w1 td1] bu1] & s1 & H1 & H2).
    rewrite (bind_Done_eq _ _ _ _ _ H1). apply IH; [lia|done].
Qed.

Lemma CS_runOnModule_mono fuel fuel' (s : State) b s' :
  fuel ≤ fuel' →
  CS.runOnModule P log_enabled fuel s = Done b s' →
  CS.runOnModule P log_enabled fuel' s = Done b s'.
Proof.
  unfold CS.runOnModule. intros Hle H.
  apply bind_Done in H as ([] & s0 & H0 & H).
  apply bind_Done in H as (w & s1 & H1 & H).
  apply bind_Done in H as ([td bu] & s2 & H2 & H).
  rewrite (bind_Done_eq _ _ _ _ _ H0), (bind_Done_eq _ _ _ _ _ H1).
  by rewrite (bind_Done_eq _ _ _ _ _ (loop_mono _ _ _ _ _ _ _ _ Hle H2)).
Qed.
End Budget.

Section CI_total.
Context `{L : DsaLib}.
Variable P : Program.
Variable log_enabled : bool.
Hypothesis Hcallers : callers_agree P.
Hypothesis Hret : ret_cell_stays.

Lemma completes_ret {A} (a : A) : completes (mret a).
Proof. intros s Hs. by exists a, s. Qed.

Lemma completes_bind {A B} (m : M CI.State A) (k : A → M CI.State B) :
  completes m → (∀ a, completes (k a)) → completes (m ≫= k).
Proof.
  intros Hm Hk s Hs. destruct (Hm s Hs) as (a & s1 & E1 & Hs1).
  destruct (Hk a s1 Hs1) as (b & s2 & E2 & Hs2).
  exists b, s2. by rewrite (bind_Done_eq _ _ _ _ _ E1).
Qed.

Lemma completes_for_each {A} (l : list A) (body : A → M CI.State unit) :
  (∀ x, x ∈ l → completes (body x)) → completes (for_each l body).
Proof.
  induction l as [|x l IH]; intros Hb; simpl; [apply completes_ret|].
  apply completes_bind; [apply Hb; by left|].
  intros _. apply IH. intros y Hy. apply Hb. by right.
Qed.

Lemma completes_when b (m : M CI.State unit) :
  completes m → completes (when b m).
Proof. destruct b; [done|]. intros _. apply completes_ret. Qed.

Lemma completes_say msg : completes (CI.say msg).
Proof. intros s Hs. by eexists tt, _. Qed.

Lemma completes_on_graph {A} (m : M Graph A) :
  (∀ g, ∃ a g', m g = Done a g') → completes (CI.on_graph m).
Proof.
  intros Hm s [g Hg]. unfold CI.on_graph. rewrite Hg.
  destruct (Hm g) as (a & g' & ->). eexists a, _. split; [done|]. by eexists.
Qed.

Lemma unify_arguments_completes fmls acts (g : Graph) :
  ∃ g', for_each2 fmls acts (λ farg arg,
          g ← get;
          when (hasCell g farg) (
            c ← CI.mkCellM arg;
            d ← CI.mkCellM farg;
            modify (λ g, unify g c d))) g = Done tt g'.
Proof.
  revert acts g. induction fmls as [|f fmls IH]; intros [|a acts] g; simpl;
    try by eexists.
  unfold mbind at 1, M_bind, bind. unfold mbind at 1, M_bind, bind, get.
  destruct (hasCell g f); simpl; [|apply IH].
  unfold mbind, M_bind, bind, CI.mkCellM, modify.
  destruct (mkCell g a) as [g1 c]. destruct (mkCell g1 f) as [g2 d]. apply IH.
Qed.

Lemma resolveArguments_completes cs callee (g : Graph) :
  getCallee P cs = Some callee →
  ∃ u g', CI.resolveArguments P cs g = Done u g'.
Proof.
  intros Hc. unfold CI.resolveArguments. rewrite Hc. exists tt.
  unfold mbind at 1, M_bind, bind, must, ret.
  unfold mbind at 1, M_bind, bind, get.
  unfold mbind at 1, M_bind, bind.
  destruct (hasRetCell g callee) eqn:Hr; simpl.
  - unfold mbind at 1, M_bind, bind, CI.mkCellM.
    pose proof (Hret g callee cs Hr) as [r Er].
    destruct (mkCell g cs) as [g1 nc]. simpl in Er.
    unfold mbind at 1, M_bind, bind, get. rewrite Er. simpl.
    apply unify_arguments_completes.
  - apply unify_arguments_completes.
Qed.

Lemma import_scc_member_completes cgn :
  completes (CI.import_scc_member P cgn).
Proof.
  unfold CI.import_scc_member. destruct (getFunction cgn) as [fn|];
    [|apply completes_ret].
  destruct (isDeclaration P fn || empty P fn); [apply completes_ret|].
  apply completes_bind.
  - intros s Hs. by eexists tt, _.
  - intros _. apply completes_on_graph. intros g. by eexists tt, _.
Qed.

Lemma resolve_scc_member_completes scc cgn :
  scc ∈ sccs P → cgn ∈ scc → completes (CI.resolve_scc_member P cgn).
Proof.
  intros Hscc Hcgn. unfold CI.resolve_scc_member.
  destruct (getFunction cgn) as [fn|] eqn:Hfn; [|apply completes_ret].
  destruct (isDeclaration P fn || empty P fn); [apply completes_ret|].
  apply completes_for_each. intros cs Hcs.
  destruct (getCallee P cs) as [callee|] eqn:Hcallee; [|apply completes_ret].
  apply completes_when, completes_bind.
  - rewrite (Hcallers _ _ _ _ _ Hscc Hcgn Hfn Hcs Hcallee).
    rewrite bool_decide_eq_true_2 by done. apply completes_ret.
  - intros _. apply completes_on_graph. intros g.
    by eapply resolveArguments_completes.
Qed.

Lemma run_scc_completes scc : scc ∈ sccs P → completes (CI.run_scc P scc).
Proof.
  intros Hscc. unfold CI.run_scc.
  apply completes_bind;
    [apply completes_for_each; intros; apply import_scc_member_completes|].
  intros _. apply completes_bind.
  - apply completes_for_each. intros cgn Hcgn.
    by eapply resolve_scc_member_completes.
  - intros _. apply completes_on_graph. intros g. by eexists tt, _.
Qed.

(** The context-insensitive run of a module whose call records agree with
    its call sites returns false, whatever state the analysis starts in. *)
Lemma CI_runOnModule_returns (s : CI.State) :
  ∃ s', CI.runOnModule P log_enabled s = Done false s'.
Proof.
  assert (H : ∃ b s', CI.runOnModule P log_enabled s = Done b s').
  { unfold CI.runOnModule.
    assert (H0 : ∃ s0, CI.LOG log_enabled
                         (CI.say (MsgStarted "context-insensitive")) s
                       = Done tt s0) by (destruct log_enabled; by eexists).
    destruct H0 as [s0 E0]. rewrite (bind_Done_eq _ _ _ _ _ E0).
    unfold mbind at 1, M_bind, bind, CI.set_graph, modify.
    match goal with |- ∃ b s', ?m ?s1 = _ =>
      assert (Hc : completes m); [|destruct (Hc s1) as (b & s' & E & _)] end.
    - apply completes_bind;
        [apply completes_for_each; intros; by apply run_scc_completes|].
      intros _. apply completes_bind;
        [apply completes_when, completes_say | intros _; apply completes_ret].
    - by eexists.
    - eauto. }
  destruct H as (b & s' & E). exists s'.
  by rewrite (CI_runOnModule_false _ _ _ _ _ E) in E.
Qed.

End CI_total.


Lemma demo_callers_agree : callers_agree Demo.prog.
Proof.
  intros scc cgn fn cs callee Hscc Hcgn Hfn Hcs Hcallee. simpl in Hscc.
  repeat (apply elem_of_cons in Hscc as [->|Hscc]);
    [..|by apply elem_of_nil in Hscc];
    apply list_elem_of_singleton in Hcgn as ->; simpl in *;
    try (by apply elem_of_nil in Hcs); simplify_eq;
    repeat (apply elem_of_cons in Hcs as [->|Hcs]);
    try (by apply elem_of_nil in Hcs); reflexivity.
Qed.

Lemma example_ret_cell_stays P is_global local_cells local_ret lazy_bu :
  ret_cell_stays (L := Example.lib P is_global local_cells local_ret lazy_bu).
Proof.
  intros g fn v. simpl. intros H%bool_decide_eq_true.
  unfold Example.ex_mkCell. destruct (Example.cell_of g !! v); simpl;
    by apply fmap_is_Some.
Qed.


(** * The concrete module, run *)

Lemma example_bu_keeps_functions (P P' : Program) is_global local_cells
    local_ret lazy_bu :
  bu_keeps_functions
    (L := Example.lib P is_global local_cells local_ret lazy_bu) P'.
Proof.
  intros graphs st F H. simpl. unfold Example.ex_bu_runOnModule.
  destruct lazy_bu; [done|]. by destruct (foldl _ _ _).
Qed.


Lemma CI_hasGraph_iff_imported_witness :
  let run := CI.runOnModule (L := Demo.lib) Demo.prog false CI.init in
  ∃ s', run = Done false s' ∧
        (CI.hasGraph s' Demo.f = true ↔ imported Demo.prog Demo.f) ∧
        (CI.hasGraph s' Demo.k = true ↔ imported Demo.prog Demo.k).
Proof.
  exists (final (CI.runOnModule (L := Demo.lib) Demo.prog false CI.init)).
  assert (E : CI.runOnModule (L := Demo.lib) Demo.prog false CI.init
              = Done false (final (CI.runOnModule (L := Demo.lib) Demo.prog
                                     false CI.init)))
    by (apply Done_result; vm_compute; reflexivity).
  split; [exact E|].
  split; apply (CI_hasGraph_iff_imported _ _ _ _ E).
Defined.


Lemma CS_hasGraph_every_function_witness :
  let run := CS.runOnModule (L := Demo.lib) Demo.prog false 10 CS.init in
  ∃ s', run = Done false s' ∧
        isDeclaration Demo.prog Demo.k = true ∧
        CS.hasGraph s' Demo.k = true.
Proof.
  exists (final (CS.runOnModule (L := Demo.lib) Demo.prog false 10 CS.init)).
  assert (E : CS.runOnModule (L := Demo.lib) Demo.prog false 10 CS.init
              = Done false (final (CS.runOnModule (L := Demo.lib) Demo.prog
                                     false 10 CS.init)))
    by (apply Done_result; vm_compute; reflexivity).
  split_and!; [exact E | reflexivity |].
  apply (CS_hasGraph_every_function _ _ _ _ _ _
           (example_bu_keeps_functions _ _ _ _ _ _) E).
  do 4 apply list_elem_of_further. apply list_elem_of_here.
Defined.

(** both engines return false on the concrete module; three iterations of
    the worklist loop are not enough, seven are *)
Lemma demo_runs :
  (∃ s', CI.runOnModule (L := Demo.lib) Demo.prog true CI.init
         = Done false s') ∧
  (∃ s', CS.runOnModule (L := Demo.lib) Demo.prog true 3 CS.init = Fuel s') ∧
  (∃ s', CS.runOnModule (L := Demo.lib) Demo.prog true 7 CS.init
         = Done false s' ∧
         CS.errs s' = [MsgStarted "context-sensitive"; MsgProps 1 1;
                       MsgCheckSucceed; MsgCheckSucceed;
                       MsgFinished "context-sensitive"]).
Proof.
  split_and!.
  - exists (final (CI.runOnModule (L := Demo.lib) Demo.prog true CI.init)).
    apply Done_result. vm_compute. reflexivity.
  - exists (final (CS.runOnModule (L := Demo.lib) Demo.prog true 3 CS.init)).
    apply Fuel_out_of_fuel. vm_compute. reflexivity.
  - exists (final (CS.runOnModule (L := Demo.lib) Demo.prog true 7 CS.init)).
    split; [apply Done_result|]; vm_compute; reflexivity.
Qed.

(** * The use and def sets *)

Section Indexes.
Context `{L : DsaLib}.
Variable P : Program.

Local Abbreviation State := (@CS.State L).

Lemma has_pred_add imm callee cs callee' cs' :
  has_pred (CS.add_pred imm callee cs) callee' cs' ↔
  has_pred imm callee' cs' ∨ (callee' = callee ∧ cs' = cs).
Proof.
  unfold has_pred, CS.add_pred.
  destruct (imm !! callee) as [set|] eqn:E.
  - destruct (decide (callee' = callee)) as [->|Hne].
    + rewrite lookup_insert_eq, E. simpl. set_solver.
    + rewrite lookup_insert_ne by done. naive_solver.
  - destruct (decide (callee' = callee)) as [->|Hne].
    + rewrite lookup_insert_eq, E. simpl. set_solver.
    + rewrite lookup_insert_ne by done. naive_solver.
Qed.

Lemma has_pred_records imm (l : list Instruction) callee cs :
  has_pred
    (foldl (λ imm I,
       match getCalledFunction P I with
       | Some callee =>
         if isDeclaration P callee || empty P callee then imm
         else CS.add_pred imm callee I
       | None => imm
       end) imm l) callee cs ↔
  has_pred imm callee cs ∨ (cs ∈ l ∧ record_ok P cs callee).
Proof.
  revert imm. induction l as [|x l IH]; intros imm; simpl.
  - rewrite elem_of_nil. tauto.
  - rewrite IH, elem_of_cons. unfold record_ok.
    destruct (getCalledFunction P x) as [c|] eqn:Ec.
    + destruct (isDeclaration P c || empty P c) eqn:Es.
      * apply orb_true_iff in Es. split; [tauto|].
        intros [?|[[->|?] (E1 & E2 & E3)]]; [tauto| |tauto].
        simplify_eq. destruct Es; congruence.
      * apply orb_false_iff in Es. rewrite has_pred_add. naive_solver.
    + naive_solver.
Qed.

Lemma has_pred_node imm cgn callee cs :
  has_pred (CS.node_preds P imm cgn) callee cs ↔
  has_pred imm callee cs ∨
  (skipped P (getFunction cgn) = false ∧ cs ∈ callRecords cgn ∧
   record_ok P cs callee).
Proof.
  unfold CS.node_preds. destruct (skipped P (getFunction cgn)).
  - naive_solver.
  - rewrite has_pred_records. naive_solver.
Qed.

Lemma has_pred_nodes imm (scc : list CallGraphNode) callee cs :
  has_pred (foldl (CS.node_preds P) imm scc) callee cs ↔
  has_pred imm callee cs ∨
  ∃ cgn, cgn ∈ scc ∧ skipped P (getFunction cgn) = false ∧
         cs ∈ callRecords cgn ∧ record_ok P cs callee.
Proof.
  revert imm. induction scc as [|cgn scc IH]; intros imm; simpl.
  - setoid_rewrite elem_of_nil. naive_solver.
  - rewrite IH, has_pred_node. setoid_rewrite elem_of_cons. naive_solver.
Qed.

Lemma has_pred_sccs imm (l : list (list CallGraphNode)) callee cs :
  has_pred (foldl (λ imm scc, foldl (CS.node_preds P) imm scc) imm l)
    callee cs ↔
  has_pred imm callee cs ∨
  ∃ scc cgn, scc ∈ l ∧ cgn ∈ scc ∧ skipped P (getFunction cgn) = false ∧
             cs ∈ callRecords cgn ∧ record_ok P cs callee.
Proof.
  revert imm. induction l as [|scc l IH]; intros imm; simpl.
  - setoid_rewrite elem_of_nil. naive_solver.
  - rewrite IH, has_pred_nodes. setoid_rewrite elem_of_cons. naive_solver.
Qed.

Lemma imm_preds_spec callee cs :
  has_pred (CS.imm_preds P) callee cs ↔ direct_call P cs callee.
Proof.
  unfold CS.imm_preds. rewrite has_pred_sccs. unfold has_pred at 1.
  rewrite lookup_empty. simpl. unfold direct_call, record_ok.
  rewrite elem_of_empty. naive_solver.
Qed.

Lemma imports_dec (scc : list CallGraphNode) fn :
  imports P scc fn ∨ ¬ imports P scc fn.
Proof.
  induction scc as [|cgn scc IH].
  - right. intros (c & []%elem_of_nil & _).
  - destruct IH as [(c & Hc & H)|IH].
    { left. exists c. split; [by right|done]. }
    destruct (decide (getFunction cgn = Some fn ∧ isDeclaration P fn = false
                      ∧ empty P fn = false)) as [H|H].
    + left. exists cgn. split; [by left|done].
    + right. intros (c & [->|Hc]%elem_of_cons & H'); [done|].
      apply IH. by exists c.
Qed.

Lemma imported_in_dec (l : list (list CallGraphNode)) fn :
  (∃ scc, scc ∈ l ∧ imports P scc fn) ∨ ¬ (∃ scc, scc ∈ l ∧ imports P scc fn).
Proof.
  induction l as [|scc l IH].
  - right. intros (c & []%elem_of_nil & _).
  - destruct IH as [(c & Hc & H)|IH].
    { left. exists c. split; [by right|done]. }
    destruct (imports_dec scc fn) as [H|H].
    + left. exists scc. split; [by left|done].
    + right. intros (c & [->|Hc]%elem_of_cons & H'); [done|].
      apply IH. by exists c.
Qed.

Lemma imports_cons cgn (scc : list CallGraphNode) fn :
  imports P (cgn :: scc) fn ↔ imports P [cgn] fn ∨ imports P scc fn.
Proof.
  unfold imports. setoid_rewrite elem_of_cons. setoid_rewrite elem_of_nil.
  naive_solver.
Qed.

Lemma issued_by_cons cgn (scc : list CallGraphNode) cs :
  issued_by P (cgn :: scc) cs ↔ issued_by P [cgn] cs ∨ issued_by P scc cs.
Proof.
  unfold issued_by. setoid_rewrite elem_of_cons. setoid_rewrite elem_of_nil.
  naive_solver.
Qed.

Lemma imports_one cgn fn :
  imports P [cgn] fn ↔
  getFunction cgn = Some fn ∧ isDeclaration P fn = false ∧ empty P fn = false.
Proof.
  unfold imports. setoid_rewrite list_elem_of_singleton. naive_solver.
Qed.

Lemma issued_by_one cgn cs :
  issued_by P [cgn] cs ↔
  skipped P (getFunction cgn) = false ∧ cs ∈ callRecords cgn.
Proof.
  unfold issued_by. setoid_rewrite list_elem_of_singleton. naive_solver.
Qed.

Lemma elem_of_foldl_union (l : list Instruction) (d0 : gset Instruction) cs :
  cs ∈ foldl (λ defs x, defs ∪ {[x]}) d0 l ↔ cs ∈ d0 ∨ cs ∈ l.
Proof.
  revert d0. induction l as [|x l IH]; intros d0; simpl.
  - rewrite elem_of_nil. tauto.
  - rewrite IH, elem_of_union, elem_of_singleton, elem_of_cons. tauto.
Qed.

Lemma uses_defs_step_spec imm acc cgn cs :
  (cs ∈ (uses_defs_step P imm acc cgn).1 ↔
   cs ∈ acc.1 ∨ ∃ fn, imports P [cgn] fn ∧ has_pred imm fn cs) ∧
  (cs ∈ (uses_defs_step P imm acc cgn).2 ↔ cs ∈ acc.2 ∨ issued_by P [cgn] cs).
Proof.
  destruct acc as [u d]. unfold uses_defs_step.
  setoid_rewrite imports_one. rewrite issued_by_one. unfold skipped, has_pred.
  destruct (getFunction cgn) as [fn|] eqn:Ef; simpl.
  - destruct (isDeclaration P fn || empty P fn) eqn:Es; simpl.
    + apply orb_true_iff in Es. split; (split; [tauto|]).
      * intros [?|(fn' & (E1 & E2 & E3) & Hp)]; [done|].
        simplify_eq. destruct Es; congruence.
      * intros [?|[? _]]; done.
    + apply orb_false_iff in Es as [Ed Ee]. split.
      * rewrite elem_of_union. split.
        -- intros [?|?]; [tauto|]. right. by exists fn.
        -- intros [?|(fn' & (E1 & E2 & E3) & Hp)]; [tauto|].
           simplify_eq. tauto.
      * rewrite elem_of_foldl_union. tauto.
  - split; (split; [tauto|]).
    + intros [?|(fn' & (E1 & _) & _)]; done.
    + intros [?|[? _]]; done.
Qed.

Lemma scc_uses_defs_spec imm (scc : list CallGraphNode) cs :
  (cs ∈ (CS.scc_uses_defs P imm scc).1 ↔
   ∃ fn, imports P scc fn ∧ has_pred imm fn cs) ∧
  (cs ∈ (CS.scc_uses_defs P imm scc).2 ↔ issued_by P scc cs).
Proof.
  change (CS.scc_uses_defs P imm scc)
    with (foldl (uses_defs_step P imm) (∅, ∅) scc).
  assert (H : ∀ acc,
    (cs ∈ (foldl (uses_defs_step P imm) acc scc).1 ↔
     cs ∈ acc.1 ∨ ∃ fn, imports P scc fn ∧ has_pred imm fn cs) ∧
    (cs ∈ (foldl (uses_defs_step P imm) acc scc).2 ↔
     cs ∈ acc.2 ∨ issued_by P scc cs)).
  { induction scc as [|cgn scc IH]; intros acc.
    - simpl. split; (split; [by left|]).
      + intros [?|(fn & (c & []%elem_of_nil & _) & _)]. done.
      + intros [?|(c & []%elem_of_nil & _)]. done.
    - change (foldl (uses_defs_step P imm) acc (cgn :: scc))
        with (foldl (uses_defs_step P imm) (uses_defs_step P imm acc cgn) scc).
      destruct (IH (uses_defs_step P imm acc cgn)) as [-> ->].
      destruct (uses_defs_step_spec imm acc cgn cs) as [-> ->].
      setoid_rewrite (imports_cons cgn scc).
      rewrite (issued_by_cons cgn scc). clear.
      split; [|tauto]. split.
      + intros [[?|(fn & ? & ?)]|(fn & ? & ?)]; eauto.
      + intros [?|(fn & [?|?] & ?)]; eauto. }
  destruct (H (∅, ∅)) as [H1 H2]. simpl in *.
  rewrite H1, H2, !elem_of_empty. tauto.
Qed.

Lemma store_scc_spec (scc : list CallGraphNode) uses defs (s : State) :
  ∃ s',
    for_each scc (λ cgn,
      match getFunction cgn with
      | Some fn =>
        if isDeclaration P fn || empty P fn then mret tt
        else CS.store_uses_defs fn uses defs
      | None => mret tt
      end) s = Done tt s' ∧
    but_indexes s' = but_indexes s ∧
    ∀ fn, (imports P scc fn → sets_of s' fn = (Some uses, Some defs)) ∧
          (¬ imports P scc fn → sets_of s' fn = sets_of s fn).
Proof.
  revert s. induction scc as [|cgn scc IH]; intros s.
  - exists s. split_and!; [done..|]. intros fn. split; [|done].
    intros (c & []%elem_of_nil & _).
  - simpl.
    set (body := λ cgn : CallGraphNode, _) in *.
    assert (H1 : ∃ s1, body cgn s = Done tt s1 ∧
              but_indexes s1 = but_indexes s ∧
              ∀ fn, (imports P [cgn] fn →
                     sets_of s1 fn = (Some uses, Some defs)) ∧
                    (¬ imports P [cgn] fn → sets_of s1 fn = sets_of s fn)).
    { unfold body. setoid_rewrite imports_one.
      destruct (getFunction cgn) as [fn0|] eqn:Ef.
      - destruct (isDeclaration P fn0 || empty P fn0) eqn:Es.
        + exists s. split_and!; [done..|]. intros fn. split; [|done].
          intros (E1 & E2 & E3). simplify_eq.
          apply orb_true_iff in Es. destruct Es; congruence.
        + eexists. split_and!; [done..|]. intros fn. unfold sets_of. simpl.
          apply orb_false_iff in Es as [Ed Ee]. split.
          * intros (E1 & _). simplify_eq. by rewrite !lookup_insert_eq.
          * intros Hn. rewrite !lookup_insert_ne; [done|..];
              intros ->; apply Hn; done.
      - exists s. split_and!; [done..|]. intros fn. split; [|done].
        by intros (E1 & _). }
    destruct H1 as (s1 & E1 & Hr1 & Hs1).
    destruct (IH s1) as (s' & E' & Hr' & Hs').
    exists s'. rewrite (bind_Done_eq _ _ _ _ _ E1). split_and!; [done|congruence|].
    intros fn. rewrite imports_cons.
    destruct (Hs1 fn) as [Ha Hb]. destruct (Hs' fn) as [Hc Hd].
    destruct (imports_dec scc fn) as [Hin|Hout].
    + split; [auto|]. intros Hn. destruct Hn. by right.
    + rewrite (Hd Hout). split.
      * intros [?|?]; [auto|done].
      * intros Hn. apply Hb. intros ?. apply Hn. by left.
Qed.

Lemma buildIndexes_spec (s : State) :
  ∃ s',
    CS.buildIndexes P s = Done tt s' ∧
    but_indexes s' = but_indexes s ∧
    ∀ fn,
      (imported P fn →
       ∃ scc, scc ∈ sccs P ∧ imports P scc fn ∧
              sets_of s' fn =
              (Some (CS.scc_uses_defs P (CS.imm_preds P) scc).1,
               Some (CS.scc_uses_defs P (CS.imm_preds P) scc).2)) ∧
      (¬ imported P fn → sets_of s' fn = sets_of s fn).
Proof.
  unfold CS.buildIndexes. cbv zeta.
  assert (Himp : ∀ fn, imported P fn ↔ ∃ scc, scc ∈ sccs P ∧ imports P scc fn).
  { intros fn. unfold imported, imports. naive_solver. }
  setoid_rewrite Himp. clear Himp.
  generalize (CS.imm_preds P) as imm. intros imm.
  generalize (sccs P) as l. intros l. revert s.
  induction l as [|scc l IH]; intros s.
  - exists s. split_and!; [done..|]. intros fn. split; [|done].
    intros (c & []%elem_of_nil & _).
  - simpl. destruct (CS.scc_uses_defs P imm scc) as [uses defs] eqn:Esud.
    destruct (store_scc_spec scc uses defs s) as (s1 & E1 & Hr1 & Hs1).
    destruct (IH s1) as (s' & E' & Hr' & Hs').
    exists s'. rewrite (bind_Done_eq _ _ _ _ _ E1). split_and!; [done|congruence|].
    intros fn. destruct (Hs1 fn) as [Ha Hb]. destruct (Hs' fn) as [Hc Hd].
    destruct (imported_in_dec l fn) as [Hin|Hout].
    + split.
      * intros _. destruct (Hc Hin) as (scc' & ? & ? & ?).
        exists scc'. split_and!; [by right|done..].
      * intros Hn. destruct Hn. destruct Hin as (scc' & ? & ?).
        exists scc'. split; [by right|done].
    + rewrite (Hd Hout). split.
      * intros (scc' & [->|?]%elem_of_cons & Hm); [|destruct Hout; eauto].
        exists scc. split_and!; [by left|done|]. rewrite Esud. auto.
      * intros Hn. apply Hb. intros ?. apply Hn. exists scc.
        split; [by left|done].
Qed.

End Indexes.

Section Indexes_more.
Context `{L : DsaLib}.
Variable P : Program.

Local Abbreviation State := (@CS.State L).

Lemma imported_dec fn : imported P fn ∨ ¬ imported P fn.
Proof.
  destruct (imported_in_dec P (sccs P) fn) as [H|H]; [left|right];
    unfold imported, imports in *; naive_solver.
Qed.

Lemma buildIndexes_Done (s s' : State) :
  CS.buildIndexes P s = Done tt s' →
  but_indexes s' = but_indexes s ∧
  ∀ fn,
    (imported P fn →
     ∃ scc, scc ∈ sccs P ∧ imports P scc fn ∧
            sets_of s' fn =
            (Some (CS.scc_uses_defs P (CS.imm_preds P) scc).1,
             Some (CS.scc_uses_defs P (CS.imm_preds P) scc).2)) ∧
    (¬ imported P fn → sets_of s' fn = sets_of s fn).
Proof.
  intros H. destruct (buildIndexes_spec P s) as (s1 & E & Hs).
  rewrite H in E. by injection E as <-.
Qed.

End Indexes_more.

(** X1.  [buildIndexes] always completes. It gives a use set and a def set
    to every imported function, leaves the sets of any other function as
    they were, and changes nothing else of the analysis. *)
Theorem buildIndexes_domain `{L : DsaLib} (P : Program) (s : CS.State) :
  ∃ s', CS.buildIndexes P s = Done tt s' ∧
    but_indexes s' = but_indexes s ∧
    ∀ fn,
      (imported P fn →
       is_Some (CS.m_uses s' !! fn) ∧ is_Some (CS.m_defs s' !! fn)) ∧
      (¬ imported P fn →
       CS.m_uses s' !! fn = CS.m_uses s !! fn ∧
       CS.m_defs s' !! fn = CS.m_defs s !! fn).
Proof.
  destruct (buildIndexes_spec P s) as (s' & E & Hb & Hs).
  exists s'. split_and!; [done..|]. intros fn. destruct (Hs fn) as [Hin Hout].
  split.
  - intros (scc & _ & _ & [= -> ->])%Hin. eauto.
  - by intros [= -> ->]%Hout.
Qed.

(** X2.  The use set that [buildIndexes] stores for an imported function
    holds the direct calls, made in functions with a body, to the functions
    with a body of its SCC; its def set holds every call record of the
    functions with a body of its SCC, whatever is called. *)
Theorem buildIndexes_sets `{L : DsaLib} (P : Program) (s s' : CS.State)
    (fn : Function) :
  CS.buildIndexes P s = Done tt s' → imported P fn →
  ∃ scc uses defs,
    scc ∈ sccs P ∧ imports P scc fn ∧
    CS.m_uses s' !! fn = Some uses ∧ CS.m_defs s' !! fn = Some defs ∧
    (∀ cs, cs ∈ uses ↔
           ∃ callee, imports P scc callee ∧ direct_call P cs callee) ∧
    (∀ cs, cs ∈ defs ↔ issued_by P scc cs).
Proof.
  intros [_ Hs]%buildIndexes_Done Hfn.
  destruct (Hs fn) as [Hin _]. destruct (Hin Hfn) as (scc & Hscc & Himp & Hsets).
  injection Hsets as Eu Ed.
  exists scc, (CS.scc_uses_defs P (CS.imm_preds P) scc).1,
    (CS.scc_uses_defs P (CS.imm_preds P) scc).2.
  split_and!; [done..| |].
  - intros cs.
    destruct (scc_uses_defs_spec P (CS.imm_preds P) scc cs) as [-> _].
    by setoid_rewrite imm_preds_spec.
  - intros cs.
    by destruct (scc_uses_defs_spec P (CS.imm_preds P) scc cs) as [_ ->].
Qed.

(** X3.  When no function belongs to two SCCs, the functions of an SCC share
    their use set and their def set. *)
Theorem buildIndexes_scc_shares `{L : DsaLib} (P : Program) (s s' : CS.State)
    (scc : list CallGraphNode) (f g : Function) :
  one_scc_each P →
  CS.buildIndexes P s = Done tt s' →
  scc ∈ sccs P → imports P scc f → imports P scc g →
  CS.m_uses s' !! f = CS.m_uses s' !! g ∧
  CS.m_defs s' !! f = CS.m_defs s' !! g.
Proof.
  intros Hone [_ Hs]%buildIndexes_Done Hscc Hf Hg.
  assert (Hset : ∀ fn, imports P scc fn →
            sets_of s' fn =
            (Some (CS.scc_uses_defs P (CS.imm_preds P) scc).1,
             Some (CS.scc_uses_defs P (CS.imm_preds P) scc).2)).
  { intros fn Hfn. destruct (Hs fn) as [Hin _].
    destruct Hin as (scc' & Hscc' & Hfn' & E).
    { destruct Hfn as (cgn & ? & ? & ? & ?). by exists scc, cgn. }
    by rewrite (Hone scc scc' fn Hscc Hscc' Hfn Hfn'). }
  pose proof (Hset f Hf) as [= Ef1 Ef2]. pose proof (Hset g Hg) as [= Eg1 Eg2].
  by rewrite Ef1, Ef2, Eg1, Eg2.
Qed.

(** X4.  In a run that [initialize] started, an iteration that propagates at
    a call site leaves pending, besides what was pending, exactly the direct
    calls to the functions of the SCC of the function whose graph changed
    (the callee for [DOWN], the caller for [UP]) and the call records of
    that SCC. *)
Theorem propagation_requeues `{L : DsaLib} (P : Program) (log_enabled : bool)
    (s0 s1 : CS.State) (w0 : Worklist)
    (cs : Instruction) (w : Worklist) (td bu : N) (s : CS.State)
    (w' : Worklist) (td' bu' : N) (s' : CS.State) (fn : Function) :
  CS.initialize P s0 = Done w0 s1 →
  CS.m_uses s = CS.m_uses s1 → CS.m_defs s = CS.m_defs s1 →
  CS.iteration P log_enabled cs w td bu s = Done (w', td', bu') s' →
  isInlineAsm P cs = false → skipped P (getCallee P cs) = false →
  (kind_at P s cs = Some DOWN ∧ getCallee P cs = Some fn) ∨
  (kind_at P s cs = Some UP ∧ getCaller P cs = Some fn) →
  imported P fn →
  ∃ scc, scc ∈ sccs P ∧ imports P scc fn ∧
    ∀ x, x ∈ w' ↔
         x ∈ w ∨ (∃ callee, imports P scc callee ∧ direct_call P x callee) ∨
         issued_by P scc x.
Proof.
  intros Hinit Eu Ed Hrun Ha Hs Hk Hfn.
  unfold CS.initialize in Hinit.
  apply bind_Done in Hinit as ([] & t1 & _ & Hinit).
  apply bind_Done in Hinit as (mappings & t2 & _ & Hinit).
  apply bind_Done in Hinit as ([] & t3 & Hidx & [_ ->]%ret_Done).
  apply buildIndexes_Done in Hidx as [_ Hidx].
  destruct (Hidx fn) as [Hsets _].
  destruct (Hsets Hfn) as (scc & Hscc & Himp & [= Hu Hd]).
  exists scc. split_and!; [done..|].
  destruct (iteration_Done _ _ _ _ _ _ _ _ _ _ _ Hrun Ha Hs) as (k & Hkind & Hcase).
  assert (Hre : reinserted s fn w w').
  { destruct Hk as [[Hk Hc]|[Hk Hc]]; rewrite Hk in Hkind;
      injection Hkind as <-; destruct Hcase as (fn' & Hc' & Hre & _);
      rewrite Hc in Hc'; by injection Hc' as <-. }
  destruct Hre as (uses' & defs' & Hu' & Hd' & _ & Hin).
  rewrite Eu, Hu in Hu'. rewrite Ed, Hd in Hd'.
  injection Hu' as <-. injection Hd' as <-.
  intros x. rewrite Hin.
  destruct (scc_uses_defs_spec P (CS.imm_preds P) scc x) as [-> ->].
  by setoid_rewrite imm_preds_spec.
Qed.

(** * Runs of the worklist loop *)

Global Instance store_off_preorder `{L : DsaLib} r0 : PreOrder (store_off r0).
Proof.
  split; [by intros s r|]. intros s1 s2 s3 H12 H23 r Hr.
  by rewrite H23, H12.
Qed.

(** frame properties of code that writes one graph *)
Ltac cs_store_off :=
  cs_unfold; preserves_go;
  try lazymatch goal with
      | |- preserves (store_off _) (modify _) =>
        apply preserves_modify; intros ? ? ?; simpl;
        first [ reflexivity | by rewrite lookup_insert_ne ]
      end.

Section Iteration_runs.
Context `{L : DsaLib}.
Variable P : Program.
Variable log_enabled : bool.

Local Abbreviation State := (@CS.State L).

Lemma kind_at_Some (s : State) cs k :
  kind_at P s cs = Some k ↔
  ∃ callerR calleeR calleeG callerG,
    CS.graph_of s (getCaller P cs) = Some callerR ∧
    CS.graph_of s (getCallee P cs) = Some calleeR ∧
    CS.store s !! calleeR = Some calleeG ∧
    CS.store s !! callerR = Some callerG ∧
    k = decidePropagation cs calleeG callerG.
Proof.
  unfold kind_at. split.
  - intros H.
    destruct (CS.graph_of s (getCaller P cs)) as [callerR|]; [|done].
    destruct (CS.graph_of s (getCallee P cs)) as [calleeR|]; [|done].
    simpl in H.
    destruct (CS.store s !! calleeR) as [calleeG|] eqn:E1; [|done].
    simpl in H.
    destruct (CS.store s !! callerR) as [callerG|] eqn:E2; [|done].
    simpl in H. injection H as <-.
    by exists callerR, calleeR, calleeG, callerG.
  - intros (callerR & calleeR & calleeG & callerG & -> & -> & E1 & E2 & ->).
    simpl. rewrite E1. simpl. rewrite E2. done.
Qed.

Lemma decideM_kind_at cs (s : State) callerR calleeR k :
  CS.graph_of s (getCaller P cs) = Some callerR →
  CS.graph_of s (getCallee P cs) = Some calleeR →
  kind_at P s cs = Some k →
  CS.decideM cs calleeR callerR s = Done k s.
Proof.
  intros Er Ee (r1 & r2 & calleeG & callerG & ? & ? & ? & ? & ->)%kind_at_Some.
  simplify_eq. apply decideM_Done. split; [done|]. by exists calleeG, callerG.
Qed.

Lemma decideM_no_kind cs (s : State) callerR calleeR :
  CS.graph_of s (getCaller P cs) = Some callerR →
  CS.graph_of s (getCallee P cs) = Some calleeR →
  kind_at P s cs = None →
  CS.decideM cs calleeR callerR s = Abort s.
Proof.
  unfold kind_at. intros -> ->. simpl. intros H.
  unfold CS.decideM, CS.readG.
  destruct (CS.store s !! calleeR) as [calleeG|] eqn:E1; cycle 1.
  { apply bind_Abort_eq. rewrite (bind_Done_eq _ _ s s s) by done.
    by rewrite E1. }
  assert (R1 : (s0 ← get; must (CS.store s0 !! calleeR)) s = Done calleeG s).
  { rewrite (bind_Done_eq _ _ s s s) by done. by rewrite E1. }
  rewrite (bind_Done_eq _ _ _ _ _ R1).
  simpl in H. destruct (CS.store s !! callerR) as [callerG|] eqn:E2; [done|].
  apply bind_Abort_eq. rewrite (bind_Done_eq _ _ s s s) by done.
  by rewrite E2.
Qed.

(** the call site has a callee with a body and is no inline-asm call: the
    loop and the sanity check look at its graphs *)
Lemma iteration_no_kind cs w td bu (s : State) :
  isInlineAsm P cs = false → skipped P (getCallee P cs) = false →
  kind_at P s cs = None →
  CS.iteration P log_enabled cs w td bu s = Abort s.
Proof.
  unfold CS.iteration. intros -> -> Hk.
  rewrite (bind_Done_eq _ _ s s s) by done.
  destruct (CS.graph_of s (getCaller P cs)) as [callerR|] eqn:Er; [|done].
  destruct (CS.graph_of s (getCallee P cs)) as [calleeR|] eqn:Ee; [|done].
  rewrite !bool_decide_eq_true_2 by eauto. simpl.
  rewrite (bind_Done_eq _ _ s tt s) by done.
  rewrite (bind_Done_eq _ _ s tt s) by done.
  rewrite (bind_Done_eq _ _ s callerR s) by done.
  rewrite (bind_Done_eq _ _ s calleeR s) by done.
  by rewrite (bind_Abort_eq _ _ _ _ (decideM_no_kind _ _ _ _ Er Ee Hk)).
Qed.

Lemma check_callsite_no_kind cs (s : State) :
  skipped P (getCallee P cs) = false → kind_at P s cs = None →
  CS.check_callsite P cs s = Abort s.
Proof.
  unfold CS.check_callsite. intros -> Hk.
  rewrite (bind_Done_eq _ _ s s s) by done.
  destruct (CS.graph_of s (getCaller P cs)) as [callerR|] eqn:Er; [|done].
  destruct (CS.graph_of s (getCallee P cs)) as [calleeR|] eqn:Ee; [|done].
  rewrite !bool_decide_eq_true_2 by eauto. simpl.
  rewrite (bind_Done_eq _ _ s tt s) by done.
  rewrite (bind_Done_eq _ _ s tt s) by done.
  rewrite (bind_Done_eq _ _ s callerR s) by done.
  rewrite (bind_Done_eq _ _ s calleeR s) by done.
  by rewrite (bind_Abort_eq _ _ _ _ (decideM_no_kind _ _ _ _ Er Ee Hk)).
Qed.

Lemma iteration_settled cs w td bu (s : State) :
  settled P s cs → CS.iteration P log_enabled cs w td bu s = Done (w, td, bu) s.
Proof.
  unfold CS.iteration. intros Hs.
  destruct (isInlineAsm P cs) eqn:Ea; [done|].
  destruct (skipped P (getCallee P cs)) eqn:Es; [done|].
  destruct Hs as [?|[?|Hk]]; [congruence..|].
  pose proof Hk as (callerR & calleeR & calleeG & callerG & Er & Ee & _)%
    kind_at_Some.
  rewrite (bind_Done_eq _ _ s s s) by done.
  rewrite Er, Ee.
  rewrite !bool_decide_eq_true_2 by eauto. simpl.
  rewrite (bind_Done_eq _ _ s tt s) by done.
  rewrite (bind_Done_eq _ _ s tt s) by done.
  rewrite (bind_Done_eq _ _ s callerR s) by done.
  rewrite (bind_Done_eq _ _ s calleeR s) by done.
  rewrite (bind_Done_eq _ _ _ _ _ (decideM_kind_at _ _ _ _ _ Er Ee Hk)).
  done.
Qed.

Lemma iteration_store cs w td bu (s : State) r :
  CS.store (final (CS.iteration P log_enabled cs w td bu s)) !! r
    ≠ CS.store s !! r →
  (kind_at P s cs = Some DOWN ∧ CS.graph_of s (getCallee P cs) = Some r) ∨
  (kind_at P s cs = Some UP ∧ CS.graph_of s (getCaller P cs) = Some r).
Proof.
  destruct (isInlineAsm P cs) eqn:Ea.
  { unfold CS.iteration. rewrite Ea. done. }
  destruct (skipped P (getCallee P cs)) eqn:Es.
  { unfold CS.iteration. rewrite Ea, Es. done. }
  destruct (kind_at P s cs) as [k|] eqn:Hk; cycle 1.
  { by rewrite iteration_no_kind. }
  pose proof Hk as (callerR & calleeR & calleeG & callerG & Er & Ee & _)%
    kind_at_Some.
  unfold CS.iteration. rewrite Ea, Es.
  rewrite (bind_Done_eq _ _ s s s) by done.
  rewrite Er, Ee.
  rewrite !bool_decide_eq_true_2 by eauto. simpl.
  rewrite (bind_Done_eq _ _ s tt s) by done.
  rewrite (bind_Done_eq _ _ s tt s) by done.
  rewrite (bind_Done_eq _ _ s callerR s) by done.
  rewrite (bind_Done_eq _ _ s calleeR s) by done.
  rewrite (bind_Done_eq _ _ _ _ _ (decideM_kind_at _ _ _ _ _ Er Ee Hk)).
  destruct k; simpl; [| |done].
  - intros Hne. left. split; [done|]. f_equal.
    destruct (decide (r = calleeR)) as [->|Hr]; [done|]. destruct Hne.
    revert r Hr. match goal with |- ∀ r, _ → CS.store (final (?m s)) !! _ = _ =>
      assert (Hm : preserves (store_off calleeR) m) by cs_store_off end.
    apply Hm.
  - intros Hne. right. split; [done|]. f_equal.
    destruct (decide (r = callerR)) as [->|Hr]; [done|]. destruct Hne.
    revert r Hr. match goal with |- ∀ r, _ → CS.store (final (?m s)) !! _ = _ =>
      assert (Hm : preserves (store_off callerR) m) by cs_store_off end.
    apply Hm.
Qed.

End Iteration_runs.

(** X5.  A worklist of settled call sites drains in as many iterations as it
    has elements, and the state is left as it was. *)
Theorem loop_settled_drains `{L : DsaLib} (P : Program) (log_enabled : bool)
    (fuel : nat) (w : Worklist) (td bu : N) (s : CS.State) :
  Forall (settled P s) w → length w ≤ fuel →
  CS.loop P log_enabled fuel w td bu s = Done (td, bu) s.
Proof.
  revert fuel. induction w as [|cs w IH] using rev_ind; intros fuel Hw Hlen.
  - by destruct fuel.
  - apply Forall_app in Hw as [Hw Hcs%Forall_inv].
    rewrite length_app in Hlen. simpl in Hlen.
    destruct fuel as [|fuel]; [lia|]. simpl.
    rewrite back_app, pop_back_app.
    rewrite (bind_Done_eq _ _ _ _ _
               (iteration_settled P log_enabled cs w td bu s Hcs)).
    apply IH; [done|lia].
Qed.

(** X6.  An iteration of the worklist loop changes at most one graph, however
    it ends: the graph of the callee when the decision is [DOWN], the graph
    of the caller when it is [UP] (the cloner writes the graph it clones
    into, the bottom-up helper the caller graph).  It changes neither the
    graph a function has nor a use or def set. *)
Theorem iteration_changes_one_graph `{L : DsaLib} (P : Program)
    (log_enabled : bool) (cs : Instruction) (w : Worklist) (td bu : N)
    (s : CS.State) :
  let s' := final (CS.iteration P log_enabled cs w td bu s) in
  index s' = index s ∧
  ∀ r, CS.store s' !! r ≠ CS.store s !! r →
    (kind_at P s cs = Some DOWN ∧ CS.graph_of s (getCallee P cs) = Some r) ∨
    (kind_at P s cs = Some UP ∧ CS.graph_of s (getCaller P cs) = Some r).
Proof.
  split.
  - symmetry. apply (iteration_index P log_enabled cs w td bu s).
  - apply iteration_store.
Qed.

(** X7.  When the caller or the callee of a call site that the loop and the
    sanity check look at has no graph, the iteration for it and its check
    stop at their assertion, with the state as it was. *)
Theorem missing_graph_aborts `{L : DsaLib} (P : Program) (log_enabled : bool)
    (cs : Instruction) (w : Worklist) (td bu : N) (s : CS.State) :
  isInlineAsm P cs = false → skipped P (getCallee P cs) = false →
  kind_at P s cs = None →
  CS.iteration P log_enabled cs w td bu s = Abort s ∧
  CS.check_callsite P cs s = Abort s.
Proof.
  intros Ha Hs Hk. split.
  - by apply iteration_no_kind.
  - by apply check_callsite_no_kind.
Qed.

(** * What a run writes *)

Section On_done.
Context {St : Type} (R : relation St) `{!PreOrder R}.

Lemma preserves_on_done {A} (m : M St A) : preserves R m → on_done R m.
Proof. intros Hm s a s'. by apply preserves_Done. Qed.

Lemma on_done_bind {A B} (m : M St A) (k : A → M St B) :
  on_done R m → (∀ a, on_done R (k a)) → on_done R (m ≫= k).
Proof.
  intros Hm Hk s b s' (a & s1 & H1 & H2)%bind_Done.
  etrans; [by eapply Hm | by eapply Hk].
Qed.

End On_done.

Section Output.
Context `{L : DsaLib}.
Variable P : Program.
Variable log_enabled : bool.

Local Abbreviation State := (@CS.State L).

Lemma decideM_said cs calleeR callerR m (s : State) k k' s1 s2 :
  CS.decideM cs calleeR callerR s = Done k s1 →
  CS.decideM cs calleeR callerR (said m s) = Done k' s2 → k' = k.
Proof.
  intros (_ & ? & ? & ? & ? & ->)%decideM_Done
         (_ & ? & ? & ? & ? & ->)%decideM_Done.
  simpl in *. by simplify_eq.
Qed.

(** the line a sanity check of a propagation would write is written only
    in a run that its assertion stops *)
Lemma recheck_errs cs calleeR callerR bad msg :
  on_done (keeps CS.errs)
    (CS.LOG log_enabled
       (k ← CS.decideM cs calleeR callerR;
        when (bool_decide (k = bad)) (CS.say msg));;
     k ← CS.decideM cs calleeR callerR;
     assert (bool_decide (k ≠ bad))).
Proof.
  intros s [] s' H.
  apply bind_Done in H as ([] & s1 & Hlog & H).
  apply bind_Done in H as (k & s2 & Hk & [Hne ->]%assert_Done).
  apply bool_decide_eq_true in Hne.
  pose proof Hk as [-> _]%decideM_Done.
  destruct log_enabled; simpl in Hlog; [|by injection Hlog as ->].
  apply bind_Done in Hlog as (k1 & s0 & Hk1 & Hsay).
  pose proof Hk1 as [-> _]%decideM_Done.
  case_bool_decide as Hb; simpl in Hsay; [|by injection Hsay as ->].
  apply modify_Done in Hsay. subst s1 k1.
  by rewrite (decideM_said _ _ _ _ _ _ _ _ _ Hk1 Hk) in Hne.
Qed.

Lemma cloneAndResolveArguments_errs cs callerR calleeR :
  preserves (keeps CS.errs) (CS.cloneAndResolveArguments P cs callerR calleeR).
Proof. cs_preserves. Qed.

Lemma propagateTopDown_errs cs callerR calleeR :
  on_done (keeps CS.errs)
    (CS.propagateTopDown P log_enabled cs callerR calleeR).
Proof.
  unfold CS.propagateTopDown. apply on_done_bind; [apply _|..].
  - apply preserves_on_done, cloneAndResolveArguments_errs.
  - intros []. apply recheck_errs.
Qed.

Lemma propagateBottomUp_errs cs calleeR callerR :
  on_done (keeps CS.errs)
    (CS.propagateBottomUp log_enabled cs calleeR callerR).
Proof.
  unfold CS.propagateBottomUp.
  apply on_done_bind; [apply _|apply preserves_on_done; cs_preserves|].
  intros calleeG.
  apply on_done_bind; [apply _|apply preserves_on_done; cs_preserves|].
  intros callerG.
  apply on_done_bind; [apply _|apply preserves_on_done; cs_preserves|].
  intros []. apply recheck_errs.
Qed.

Lemma reinsert_errs fn (w : Worklist) (td bu : N) :
  preserves (keeps (CS.errs (L := L)))
    (s0 ← get;
     w ← CS.insert_all (CS.m_uses s0) fn w;
     w ← CS.insert_all (CS.m_defs s0) fn w;
     mret (w, td, bu)).
Proof. cs_preserves. Qed.

Lemma iteration_errs cs w td bu :
  on_done (keeps CS.errs) (CS.iteration P log_enabled cs w td bu).
Proof.
  unfold CS.iteration.
  destruct (isInlineAsm P cs); [apply preserves_on_done; cs_preserves|].
  destruct (skipped P (getCallee P cs)); [apply preserves_on_done; cs_preserves|].
  apply on_done_bind; [apply _|apply preserves_on_done; cs_preserves|].
  intros s0.
  do 5 (apply on_done_bind; [apply _|apply preserves_on_done; cs_preserves|];
        intros ?).
  case_bool_decide; [|case_bool_decide].
  - apply on_done_bind; [apply _|apply propagateTopDown_errs|]. intros [].
    apply preserves_on_done. cs_preserves.
  - apply on_done_bind; [apply _|apply propagateBottomUp_errs|]. intros [].
    apply preserves_on_done. cs_preserves.
  - apply preserves_on_done. cs_preserves.
Qed.

Lemma loop_errs fuel w td bu :
  on_done (keeps CS.errs) (CS.loop P log_enabled fuel w td bu).
Proof.
  revert w td bu. induction fuel as [|fuel IH]; intros w td bu; simpl;
    (destruct (back w); [|apply preserves_on_done; cs_preserves]).
  - by intros s a s'.
  - apply on_done_bind; [apply _|apply iteration_errs|].
    intros [[w' td'] bu']. apply IH.
Qed.

Lemma initialize_errs : preserves (keeps CS.errs) (CS.initialize P).
Proof.
  unfold CS.initialize, CS.buildIndexes, CS.store_uses_defs, CS.new_graph.
  preserves_go;
    try lazymatch goal with
        | |- preserves (keeps _) (modify _) =>
          apply preserves_modify; intros ?; reflexivity
        end.
  intros s. unfold CS.bottomUp.
  by destruct (bu_runOnModule P (CS.m_graphs s) (CS.store s)) as [[??]?].
Qed.

Lemma check_twice (s : State) b1 s1 b2 s2 :
  CS.checkNoMorePropagation P s = Done b1 s1 →
  CS.checkNoMorePropagation P s1 = Done b2 s2 →
  b2 = b1 ∧ ∃ m, s1 = said m s ∧ s2 = said m s1.
Proof.
  intros H1%checkNoMorePropagation_Done H2%checkNoMorePropagation_Done.
  destruct b1.
  - destruct H1 as [Hall ->]. destruct b2.
    + destruct H2 as [_ ->]. eauto.
    + destruct H2 as (scanned & cs & rest & k & El & _ & Hk & Hne & _).
      rewrite Forall_forall in Hall.
      specialize (Hall cs). rewrite El in Hall.
      change (kind_at P (said MsgCheckSucceed s) cs) with (kind_at P s cs) in Hk.
      rewrite Hall in Hk by set_solver. by injection Hk as <-.
  - destruct H1 as (scanned & cs & rest & k & El & Hok & Hk & Hne & ->).
    destruct b2.
    + destruct H2 as [Hall _]. rewrite Forall_forall in Hall.
      specialize (Hall cs). rewrite El in Hall.
      change (kind_at P (said ?m s) cs) with (kind_at P s cs) in Hall.
      rewrite Hall in Hk by set_solver. by injection Hk as <-.
    + destruct H2 as (scanned' & cs' & rest' & k' & El' & Hok' & Hk' & Hne' & ->).
      split; [done|].
      change (kind_at P (said ?m s) cs') with (kind_at P s cs') in Hk'.
      assert (Hpre : scanned' = scanned ∧ cs' = cs).
      { clear -El El' Hok Hok' Hk Hk' Hne Hne'. rewrite El in El'. clear El.
        revert scanned' El' Hok'.
        induction scanned as [|x l IH]; intros [|x' l'] El' Hok'; simpl in *.
        - by injection El' as ->.
        - injection El' as -> _. apply Forall_inv in Hok'.
          change (kind_at P (said ?m s) x') with (kind_at P s x') in Hok'.
          congruence.
        - injection El' as -> _. apply Forall_inv in Hok. congruence.
        - injection El' as -> El'. apply Forall_cons in Hok as [_ Hok].
          apply Forall_cons in Hok' as [_ Hok'].
          destruct (IH Hok l' El' Hok') as [-> ->]. done. }
      destruct Hpre as [-> ->]. assert (k' = k) as -> by congruence. eauto.
Qed.

End Output.


Section Check_runs.
Context `{L : DsaLib}.
Variable P : Program.

Local Abbreviation State := (@CS.State L).

Lemma for_each_until_skips {St A R} (l : list A) (body : A → M St (option R))
    (s : St) :
  Forall (λ x, body x s = Done None s) l → for_each_until l body s = Done None s.
Proof.
  induction 1 as [|x l Hx _ IH]; simpl; [done|].
  by rewrite (bind_Done_eq _ _ _ _ _ Hx).
Qed.

Lemma for_each_until_stops {St A R} (l1 l2 : list A) (x : A)
    (body : A → M St (option R)) (s : St) :
  Forall (λ x, body x s = Done None s) l1 →
  for_each_until (l1 ++ x :: l2) body s =
  (r ← body x;
   match r with Some v => mret (Some v) | None => for_each_until l2 body end) s.
Proof.
  intros H1. rewrite for_each_until_app.
  by rewrite (bind_Done_eq _ _ _ _ _ (for_each_until_skips _ _ _ H1)).
Qed.

Lemma check_callsite_kind cs (s : State) k :
  skipped P (getCallee P cs) = false → kind_at P s cs = Some k →
  CS.check_callsite P cs s =
  if bool_decide (k = NONE) then Done None s
  else Done (Some false) (said (MsgCheckFailed cs (CS.pkind_str k)) s).
Proof.
  unfold CS.check_callsite. intros -> Hk.
  pose proof Hk as (callerR & calleeR & calleeG & callerG & Er & Ee & _)%
    kind_at_Some.
  rewrite (bind_Done_eq _ _ s s s) by done.
  rewrite Er, Ee.
  rewrite !bool_decide_eq_true_2 by eauto. simpl.
  rewrite (bind_Done_eq _ _ s tt s) by done.
  rewrite (bind_Done_eq _ _ s tt s) by done.
  rewrite (bind_Done_eq _ _ s callerR s) by done.
  rewrite (bind_Done_eq _ _ s calleeR s) by done.
  rewrite (bind_Done_eq _ _ _ _ _ (decideM_kind_at _ _ _ _ _ _ Er Ee Hk)).
  by destruct k.
Qed.

Lemma check_callsites_none (l : list Instruction) (s : State) :
  l ⊆ resolvable_callsites P →
  Forall (λ cs, kind_at P s cs = Some NONE) l →
  Forall (λ cs, CS.check_callsite P cs s = Done None s) l.
Proof.
  intros Hl. rewrite !Forall_forall. intros Hall cs Hcs.
  assert (Hskip : skipped P (getCallee P cs) = false).
  { apply Hl in Hcs. unfold resolvable_callsites in Hcs.
    by apply list_elem_of_filter in Hcs as [? _]. }
  by rewrite (check_callsite_kind _ _ _ Hskip (Hall _ Hcs)).
Qed.

End Check_runs.

(** X9.  How the sanity check ends is decided by the first resolvable call
    site that is not consistent: when there is none, the check reports
    success and returns true; when both graphs of that call site exist, the
    check reports that call site and returns false; when one of them is
    missing, the check stops at an assertion, having written nothing. *)
Theorem checkNoMorePropagation_decides `{L : DsaLib} (P : Program)
    (s : CS.State) :
  (Forall (λ cs, kind_at P s cs = Some NONE) (resolvable_callsites P) →
   CS.checkNoMorePropagation P s = Done true (said MsgCheckSucceed s)) ∧
  (∀ scanned cs rest,
     resolvable_callsites P = scanned ++ cs :: rest →
     Forall (λ cs, kind_at P s cs = Some NONE) scanned →
     match kind_at P s cs with
     | Some NONE => True
     | Some k =>
       CS.checkNoMorePropagation P s =
       Done false (said (MsgCheckFailed cs (CS.pkind_str k)) s)
     | None => CS.checkNoMorePropagation P s = Abort s
     end).
Proof.
  split.
  - intros Hall. unfold CS.checkNoMorePropagation.
    rewrite (bind_Done_eq _ _ s None s); [done|].
    rewrite check_scan_flat. apply for_each_until_skips.
    by apply check_callsites_none.
  - intros scanned cs rest El Hall.
    assert (Hskip : skipped P (getCallee P cs) = false).
    { assert (Hcs : cs ∈ resolvable_callsites P) by (rewrite El; set_solver).
      unfold resolvable_callsites in Hcs.
      by apply list_elem_of_filter in Hcs as [? _]. }
    assert (Hscan : ∀ r, CS.check_callsite P cs s = r →
              for_each_until (sccs P)
                (λ scc, for_each_until scc (CS.check_node P)) s =
              (r ← (λ _, r);
               match r with
               | Some v => mret (Some v)
               | None => for_each_until rest (CS.check_callsite P)
               end) s).
    { intros r <-. rewrite check_scan_flat, El. apply for_each_until_stops.
      apply check_callsites_none; [|done]. rewrite El. set_solver. }
    destruct (kind_at P s cs) as [k|] eqn:Hk.
    + pose proof (check_callsite_kind P _ _ _ Hskip Hk) as Hc.
      destruct k; [| |done]; simpl in Hc; unfold CS.checkNoMorePropagation;
        unfold mbind at 1, M_bind at 1, bind at 1;
        rewrite (Hscan _ Hc); done.
    + pose proof (check_callsite_no_kind P _ _ Hskip Hk) as Hc.
      unfold CS.checkNoMorePropagation.
      unfold mbind at 1, M_bind at 1, bind at 1.
      rewrite (Hscan _ Hc). done.
Qed.

(** * The result of a completed context-sensitive run *)

Section CS_result.
Context `{L : DsaLib}.
Variable P : Program.
Variable log_enabled : bool.

Local Abbreviation State := (@CS.State L).

Lemma LOG_say_kind m (s : State) s' cs :
  CS.LOG log_enabled (CS.say m) s = Done tt s' →
  kind_at P s' cs = kind_at P s cs.
Proof.
  destruct log_enabled; simpl.
  - by intros ->%modify_Done.
  - by intros [= ->].
Qed.

End CS_result.


(** * Runs of the context-insensitive engine *)

Section CI_runs.
Context `{L : DsaLib}.
Variable P : Program.

Local Abbreviation State := (@CI.State L).

Lemma graph_only_ret {A} (a : A) : graph_only (mret a : M State A).
Proof. by intros s1 s2 E. Qed.

Lemma graph_only_bind {A B} (m : M State A) (k : A → M State B) :
  graph_only m → (∀ a, graph_only (k a)) → graph_only (m ≫= k).
Proof.
  intros Hm Hk s1 s2 E. unfold mbind, M_bind, bind.
  specialize (Hm s1 s2 E).
  destruct (m s1) as [a s1'| |], (m s2) as [b s2'| |]; simpl in *; try done.
  destruct Hm as [-> E']. by apply Hk.
Qed.

Lemma graph_only_for_each {A} (l : list A) (body : A → M State unit) :
  (∀ x, graph_only (body x)) → graph_only (for_each l body).
Proof.
  intros Hb. induction l as [|x l IH]; simpl.
  - apply graph_only_ret.
  - apply graph_only_bind; auto.
Qed.

Lemma graph_only_when b (m : M State unit) :
  graph_only m → graph_only (when b m).
Proof. destruct b; [done | intros _; apply graph_only_ret]. Qed.

Lemma graph_only_assert b : graph_only (assert b : M State unit).
Proof. by destruct b; intros s1 s2 E. Qed.

Lemma graph_only_on_graph {A} (m : M Graph A) : graph_only (CI.on_graph m).
Proof.
  intros s1 s2 E. unfold CI.on_graph. rewrite E.
  destruct (CI.m_graph s2) as [g|] eqn:E2; simpl; [|congruence].
  by destruct (m g).
Qed.

Lemma graph_only_insert_fn fn : graph_only (CI.insert_fn fn).
Proof. by intros s1 s2 E. Qed.

Lemma graph_only_run_scc scc : graph_only (CI.run_scc P scc).
Proof.
  unfold CI.run_scc, CI.import_scc_member, CI.resolve_scc_member.
  repeat first
    [ match goal with |- ∀ _, _ => intro end
    | lazymatch goal with
      | |- graph_only (mret _) => apply graph_only_ret
      | |- graph_only (ret _) => apply graph_only_ret
      | |- graph_only (_ ≫= _) => apply graph_only_bind
      | |- graph_only (for_each _ _) => apply graph_only_for_each
      | |- graph_only (when _ _) => apply graph_only_when
      | |- graph_only (assert _) => apply graph_only_assert
      | |- graph_only (CI.on_graph _) => apply graph_only_on_graph
      | |- graph_only (CI.insert_fn _) => apply graph_only_insert_fn
      | |- graph_only (match ?e with _ => _ end) => destruct e
      end ].
Qed.

Lemma LOG_say_graph log_enabled m (s : State) :
  ∃ s', CI.LOG log_enabled (CI.say m) s = Done tt s' ∧
        CI.m_graph s' = CI.m_graph s ∧
        CI.errs s' = CI.errs s ++ (if log_enabled then [m] else []).
Proof.
  destruct log_enabled; eexists; (split; [reflexivity|]); simpl; [done|].
  by rewrite app_nil_r.
Qed.

Lemma same_graph_bind {A B} (m1 m2 : M State A) (k1 k2 : A → M State B)
    (s1 s2 : State) :
  same_graph (m1 s1) (m2 s2) →
  (∀ a t1 t2, CI.m_graph t1 = CI.m_graph t2 →
              same_graph (k1 a t1) (k2 a t2)) →
  same_graph ((m1 ≫= k1) s1) ((m2 ≫= k2) s2).
Proof.
  intros Hm Hk. unfold mbind, M_bind, bind.
  destruct (m1 s1) as [a t1| |], (m2 s2) as [b t2| |]; simpl in *; try done.
  destruct Hm as [-> E]. by apply Hk.
Qed.

Lemma LOG_say_same log1 log2 m (s1 s2 : State) :
  CI.m_graph s1 = CI.m_graph s2 →
  same_graph (CI.LOG log1 (CI.say m) s1) (CI.LOG log2 (CI.say m) s2).
Proof. by destruct log1, log2. Qed.

Lemma on_graph_errs {A} (m : M Graph A) :
  preserves (keeps CI.errs) (CI.on_graph m).
Proof.
  intros s. unfold CI.on_graph, keeps.
  destruct (CI.m_graph s); [|done]. by destruct (m _).
Qed.

Lemma run_scc_errs scc : preserves (keeps CI.errs) (CI.run_scc P scc).
Proof.
  unfold CI.run_scc, CI.import_scc_member, CI.resolve_scc_member,
    CI.insert_fn.
  preserves_go; try apply on_graph_errs.
  by apply preserves_modify.
Qed.

Lemma CI_runOnModule_errs log_enabled (s : State) b s' :
  CI.runOnModule P log_enabled s = Done b s' →
  CI.errs s' = CI.errs s ++ CI_output log_enabled.
Proof.
  intros (_ & s0 & s1 & s2 & H0 & H1 & H2 & H3)%runOnModule_Done.
  destruct (LOG_say_graph log_enabled (MsgStarted "context-insensitive") s)
    as (x0 & E0 & _ & Herr0).
  destruct (LOG_say_graph log_enabled (MsgFinished "context-insensitive") s2)
    as (x3 & E3 & _ & Herr3).
  rewrite H0 in E0. injection E0 as <-. rewrite H3 in E3. injection E3 as <-.
  rewrite Herr3.
  apply (preserves_Done (keeps CI.errs) _ _ _ _
           (preserves_for_each _ _ _ run_scc_errs)) in H2.
  unfold keeps in H2. rewrite <- H2. apply modify_Done in H1. subst s1. simpl.
  rewrite Herr0. unfold CI_output. destruct log_enabled; simpl.
  - by rewrite <- (assoc_L (++)).
  - by rewrite !app_nil_r.
Qed.

(** *** More arguments than parameters *)

Lemma bind_ext {St A B} (m : M St A) (k1 k2 : A → M St B) (s : St) :
  (∀ a s', k1 a s' = k2 a s') → (m ≫= k1) s = (m ≫= k2) s.
Proof. intros Hk. unfold mbind, M_bind, bind. by destruct (m s). Qed.

Lemma for_each2_more_actuals {St A B} (fs : list A) (acts extra : list B)
    (body : A → B → M St unit) (s : St) :
  length fs ≤ length acts →
  for_each2 fs (acts ++ extra) body s = for_each2 fs acts body s.
Proof.
  revert acts s. induction fs as [|x fs IH]; intros [|y acts] s Hlen;
    simpl in *; try done; try lia.
  unfold mbind, M_bind, bind. destruct (body x y s); [|done..].
  apply IH. lia.
Qed.

Lemma for_each2_more_formals {St A B} (fs extra : list A) (acts : list B)
    (body : A → B → M St unit) (s : St) :
  length acts ≤ length fs →
  for_each2 (fs ++ extra) acts body s = for_each2 fs acts body s.
Proof.
  revert acts s. induction fs as [|x fs IH]; intros [|y acts] s Hlen;
    simpl in *; try done; try lia.
  - by destruct extra.
  - unfold mbind, M_bind, bind. destruct (body x y s); [|done..].
    apply IH. lia.
Qed.

End CI_runs.

(** X11.  The graph a run of the context-insensitive engine computes, and
    the way the run ends, depend neither on what the analysis object held
    before (a graph of an earlier run is discarded) nor on whether the log
    is enabled. *)
Theorem CI_runOnModule_reproducible `{L : DsaLib} (P : Program)
    (log1 log2 : bool) (s1 s2 : CI.State) :
  same_graph (CI.runOnModule P log1 s1) (CI.runOnModule P log2 s2).
Proof.
  unfold CI.runOnModule.
  destruct (LOG_say_graph log1 (MsgStarted "context-insensitive") s1)
    as (t1 & E1 & _).
  destruct (LOG_say_graph log2 (MsgStarted "context-insensitive") s2)
    as (t2 & E2 & _).
  rewrite (bind_Done_eq _ _ _ _ _ E1), (bind_Done_eq _ _ _ _ _ E2).
  apply same_graph_bind; [done|].
  intros [] u1 u2 E. apply same_graph_bind.
  { by apply graph_only_for_each, E; apply graph_only_run_scc. }
  intros [] v1 v2 E'. apply same_graph_bind; [by apply LOG_say_same|].
  by intros [] x1 x2 E''.
Qed.

(** X12.  A completed run of the context-insensitive engine adds the
    imported functions to those [hasGraph] holds for and removes none:
    unlike the graph, the set of functions is not reset. It writes the two
    log lines when the log is enabled and nothing otherwise. *)
Theorem CI_runOnModule_effects `{L : DsaLib} (P : Program)
    (log_enabled : bool) (s s' : CI.State) (b : bool) :
  CI.runOnModule P log_enabled s = Done b s' →
  (∀ fn, CI.hasGraph s' fn = true ↔ CI.hasGraph s fn = true ∨ imported P fn) ∧
  CI.errs s' = CI.errs s ++ CI_output log_enabled.
Proof.
  intros Hrun. split.
  - intros fn. unfold CI.hasGraph. rewrite !bool_decide_eq_true.
    by apply (runOnModule_fns _ _ _ _ _ Hrun).
  - by eapply CI_runOnModule_errs.
Qed.

(** X13.  [resolveArguments] pairs formal and actual parameters up to the
    end of the shorter list: actual parameters of a call beyond the formal
    parameters of the callee (a call of a variadic function, say), and
    formal parameters beyond the actual ones, have no effect on the graph. *)
Theorem resolveArguments_ignores_extra `{L : DsaLib} (P : Program)
    (cs : Instruction) (extra : list Value) (g : Graph) :
  (length (formals P cs) ≤ length (actuals P cs) →
   CI.resolveArguments (with_actuals P cs (actuals P cs ++ extra)) cs g
   = CI.resolveArguments P cs g) ∧
  (length (actuals P cs) ≤ length (formals P cs) →
   CI.resolveArguments (with_formals P cs (formals P cs ++ extra)) cs g
   = CI.resolveArguments P cs g).
Proof.
  split; intros Hlen; unfold CI.resolveArguments; simpl;
    rewrite decide_True by done;
    apply bind_ext; intros callee g1; apply bind_ext; intros g2 g3;
    apply bind_ext; intros [] g4.
  - by apply for_each2_more_actuals.
  - by apply for_each2_more_formals.
Qed.

(** * The passes *)

(** X14.  The context-insensitive pass builds a new analysis each time it
    runs: after a run that returns, whatever the pass held before, [hasGraph
    (fn)] holds exactly for the imported functions, [getGraph] gives a graph
    for every function, and the pass returned false. *)
Theorem CIPass_runOnModule_fresh `{L : DsaLib} (P : Program)
    (log_enabled : bool) (p p' : CIPass.State) (b : bool) :
  CIPass.runOnModule P log_enabled p = Done b p' →
  b = false ∧
  (∀ fn, CIPass.hasGraph p' fn = Some true ↔ imported P fn) ∧
  (∀ fn, is_Some (CIPass.hasGraph p' fn) ∧ is_Some (CIPass.getGraph p' fn)) ∧
  CIPass.errs p' = CIPass.errs p ++ CI_output log_enabled.
Proof.
  unfold CIPass.runOnModule. intros H.
  destruct (CI.runOnModule _ _ _) as [b' s'| |] eqn:E; [|done..].
  injection H as -> <-.
  pose proof (CI_runOnModule_false _ _ _ _ _ E) as ->.
  unfold CIPass.hasGraph, CIPass.getGraph, CI.hasGraph, CI.getGraph. simpl.
  split_and!; [done| | |].
  - intros fn. rewrite (inj_iff Some), bool_decide_eq_true.
    rewrite (runOnModule_fns _ _ _ _ _ E). simpl.
    split; [intros [[]%not_elem_of_empty|?]; done | by right].
  - intros fn. split; [done|]. by eapply runOnModule_graph.
  - by rewrite (CI_runOnModule_errs _ _ _ _ _ E).
Qed.

(** X15.  The context-sensitive pass builds a new analysis each time it
    runs: after a run that returns, whatever the pass held before, the pass
    returned false, its analysis is the one of this run, and
    [hasGraph (F)] holds for every function [F] of the module (the
    bottom-up pass is assumed not to remove a function from the graph
    map). *)
Theorem CSPass_runOnModule_fresh `{L : DsaLib} (P : Program)
    (log_enabled : bool) (fuel : nat) (p p' : CSPass.State) (b : bool) :
  bu_keeps_functions P →
  CSPass.runOnModule P log_enabled fuel p = Done b p' →
  b = false ∧
  (∃ s', CSPass.m_ga p' = Some s' ∧ CSPass.errs p' = CS.errs s' ∧
         CS.runOnModule P log_enabled fuel (CSPass.new_analysis (CSPass.errs p))
         = Done false s') ∧
  (∀ F, F ∈ functions P → CSPass.hasGraph p' F = Some true).
Proof.
  unfold CSPass.runOnModule. intros Hbu H.
  destruct (CS.runOnModule _ _ _ _) as [b' s'| |] eqn:E; [|done..].
  injection H as -> <-.
  pose proof (CS_runOnModule_stages _ _ _ _ _ _ E)
    as (-> & s0 & s1 & s2 & s3 & w & Hnew & Hb & Hidx & Hkept).
  split_and!; [done|by exists s'|].
  intros F HF. unfold CSPass.hasGraph, CS.hasGraph. simpl. f_equal.
  apply bool_decide_eq_true. apply Hkept.
  apply (preserves_Done _ _ _ _ _ (buildIndexes_kept _)) in Hidx. apply Hidx.
  apply (preserves_Done _ _ _ _ _ (bottomUp_kept _ Hbu)) in Hb. apply Hb.
  by eapply new_graphs_all.
Qed.

(** * The concrete modules, again *)

Ltac in_list :=
  repeat first [apply list_elem_of_here | apply list_elem_of_further].

Lemma mutual_imports_odd :
  imports Mutual.prog
    [mkCallGraphNode (Some Mutual.even)
       [Mutual.call_odd; Mutual.call_abort; Mutual.call_indirect];
     mkCallGraphNode (Some Mutual.odd) [Mutual.call_even]] Mutual.odd.
Proof.
  exists (mkCallGraphNode (Some Mutual.odd) [Mutual.call_even]).
  split_and!; [in_list|reflexivity..].
Qed.

Lemma mutual_imports_even :
  imports Mutual.prog
    [mkCallGraphNode (Some Mutual.even)
       [Mutual.call_odd; Mutual.call_abort; Mutual.call_indirect];
     mkCallGraphNode (Some Mutual.odd) [Mutual.call_even]] Mutual.even.
Proof.
  exists (mkCallGraphNode (Some Mutual.even)
            [Mutual.call_odd; Mutual.call_abort; Mutual.call_indirect]).
  split_and!; [in_list|reflexivity..].
Qed.

Lemma mutual_imported_odd : imported Mutual.prog Mutual.odd.
Proof.
  destruct mutual_imports_odd as (cgn & ? & ? & ? & ?).
  eexists _, cgn. split_and!; [|done..]. simpl. in_list.
Qed.

Lemma mutual_one_scc_each : one_scc_each Mutual.prog.
Proof.
  intros scc1 scc2 fn H1 H2 (c1 & Hc1 & Hf1 & Hd1 & _) (c2 & Hc2 & Hf2 & _).
  simpl in H1, H2.
  repeat (apply elem_of_cons in H1 as [->|H1]);
    [..|by apply elem_of_nil in H1];
    repeat (apply elem_of_cons in Hc1 as [->|Hc1]);
    try (by apply elem_of_nil in Hc1); simpl in Hf1; simplify_eq;
    try discriminate Hd1;
    repeat (apply elem_of_cons in H2 as [->|H2]);
    try (by apply elem_of_nil in H2);
    repeat (apply elem_of_cons in Hc2 as [->|Hc2]);
    try (by apply elem_of_nil in Hc2); simpl in Hf2; simplify_eq; reflexivity.
Qed.

Lemma demo_imported_f : imported Demo.prog Demo.f.
Proof.
  exists [mkCallGraphNode (Some Demo.f) [Demo.call_g_a]],
    (mkCallGraphNode (Some Demo.f) [Demo.call_g_a]).
  split_and!; [simpl; in_list | in_list | reflexivity..].
Qed.

Lemma buildIndexes_sets_witness :
  ∃ s' scc uses defs,
    CS.buildIndexes (L := Demo.lib) Mutual.prog CS.init = Done tt s' ∧
    scc ∈ sccs Mutual.prog ∧ imports Mutual.prog scc Mutual.odd ∧
    CS.m_uses s' !! Mutual.odd = Some uses ∧
    CS.m_defs s' !! Mutual.odd = Some defs ∧
    (∀ cs, cs ∈ uses ↔
           ∃ callee, imports Mutual.prog scc callee ∧
                     direct_call Mutual.prog cs callee) ∧
    (∀ cs, cs ∈ defs ↔ issued_by Mutual.prog scc cs).
Proof.
  exists (final (CS.buildIndexes (L := Demo.lib) Mutual.prog CS.init)).
  assert (E : CS.buildIndexes (L := Demo.lib) Mutual.prog CS.init
              = Done tt (final (CS.buildIndexes (L := Demo.lib) Mutual.prog
                                  CS.init)))
    by (apply Done_result; vm_compute; reflexivity).
  destruct (buildIndexes_sets Mutual.prog _ _ Mutual.odd E mutual_imported_odd)
    as (scc & uses & defs & H).
  exists scc, uses, defs. split; [exact E | exact H].
Defined.

Lemma buildIndexes_scc_shares_witness :
  ∃ s', CS.buildIndexes (L := Demo.lib) Mutual.prog CS.init = Done tt s' ∧
        CS.m_uses s' !! Mutual.even = CS.m_uses s' !! Mutual.odd ∧
        CS.m_defs s' !! Mutual.even = CS.m_defs s' !! Mutual.odd.
Proof.
  exists (final (CS.buildIndexes (L := Demo.lib) Mutual.prog CS.init)).
  assert (E : CS.buildIndexes (L := Demo.lib) Mutual.prog CS.init
              = Done tt (final (CS.buildIndexes (L := Demo.lib) Mutual.prog
                                  CS.init)))
    by (apply Done_result; vm_compute; reflexivity).
  split; [exact E|].
  apply (buildIndexes_scc_shares Mutual.prog _ _
           [mkCallGraphNode (Some Mutual.even)
              [Mutual.call_odd; Mutual.call_abort; Mutual.call_indirect];
            mkCallGraphNode (Some Mutual.odd) [Mutual.call_even]]
           Mutual.even Mutual.odd mutual_one_scc_each E);
    [simpl; in_list | apply mutual_imports_even | apply mutual_imports_odd].
Defined.

Lemma propagation_requeues_witness :
  ∃ w' s' scc,
    CS.iteration Demo.prog false Demo.call_f_qq [Demo.call_f_pp] 0 0 demo_ready
    = Done (w', 1%N, 0%N) s' ∧
    scc ∈ sccs Demo.prog ∧ imports Demo.prog scc Demo.f ∧
    ∀ x, x ∈ w' ↔
         x ∈ [Demo.call_f_pp] ∨
         (∃ callee, imports Demo.prog scc callee ∧
                    direct_call Demo.prog x callee) ∨
         issued_by Demo.prog scc x.
Proof.
  exists [Demo.call_f_pp; Demo.call_f_qq; Demo.call_f_pq; Demo.call_g_a].
  exists (final (CS.iteration Demo.prog false Demo.call_f_qq
                   [Demo.call_f_pp] 0 0 demo_ready)).
  assert (E0 : CS.initialize (L := Demo.lib) Demo.prog CS.init
               = Done [Demo.call_f_pp; Demo.call_f_qq] demo_ready)
    by (unfold demo_ready; apply Done_result; vm_compute; reflexivity).
  assert (E : CS.iteration Demo.prog false Demo.call_f_qq [Demo.call_f_pp]
                0 0 demo_ready
              = Done ([Demo.call_f_pp; Demo.call_f_qq; Demo.call_f_pq;
                       Demo.call_g_a], 1%N, 0%N)
                  (final (CS.iteration Demo.prog false Demo.call_f_qq
                            [Demo.call_f_pp] 0 0 demo_ready)))
    by (apply Done_result; vm_compute; reflexivity).
  destruct (propagation_requeues Demo.prog false _ _ _ _ _ _ _ _ _ _ _ _
              Demo.f E0 eq_refl eq_refl E eq_refl eq_refl)
    as (scc & H); [left; split; vm_compute; reflexivity
                  | apply demo_imported_f |].
  exists scc. split; [exact E | exact H].
Defined.

Lemma loop_settled_drains_witness :
  CS.loop Demo.prog false 6
    [999%positive; Demo.call_f_pp; Demo.call_g_a; Demo.call_h_null;
     Demo.call_f_pq; Demo.call_f_qq] 0 0 demo_done
  = Done (0%N, 0%N) demo_done.
Proof.
  apply loop_settled_drains; [|simpl; lia].
  repeat apply Forall_cons_2; [right; left; reflexivity | ..];
    try (right; right; vm_compute; reflexivity).
  apply Forall_nil_2.
Defined.

Lemma missing_graph_aborts_witness :
  CS.iteration (L := Demo.lib) Demo.prog false Demo.call_f_pp [] 0 0 CS.init
  = Abort CS.init ∧
  CS.check_callsite (L := Demo.lib) Demo.prog Demo.call_f_pp CS.init
  = Abort CS.init.
Proof.
  apply missing_graph_aborts; reflexivity.
Defined.


Lemma CI_runOnModule_effects_witness :
  ∃ s', CI.runOnModule (L := Demo.lib) Demo.prog true CI.init = Done false s' ∧
        (CI.hasGraph s' Demo.f = true ↔
         CI.hasGraph (CI.init (L := Demo.lib)) Demo.f = true ∨
         imported Demo.prog Demo.f) ∧
        CI.errs s' = CI.errs (CI.init (L := Demo.lib)) ++ CI_output true.
Proof.
  exists (final (CI.runOnModule (L := Demo.lib) Demo.prog true CI.init)).
  assert (E : CI.runOnModule (L := Demo.lib) Demo.prog true CI.init
              = Done false (final (CI.runOnModule (L := Demo.lib) Demo.prog
                                     true CI.init)))
    by (apply Done_result; vm_compute; reflexivity).
  destruct (CI_runOnModule_effects _ _ _ _ _ E) as [Hfns Herrs].
  split_and!; [exact E | apply Hfns | exact Herrs].
Defined.


Lemma CIPass_runOnModule_fresh_witness :
  let stale : CIPass.State (L := Demo.lib) :=
    {| CIPass.m_ga := Some {| CI.m_graph := None; CI.m_fns := {[Demo.k]};
                              CI.errs := [] |};
       CIPass.errs := [] |} in
  ∃ p', CIPass.runOnModule Demo.prog false stale = Done false p' ∧
        (CIPass.hasGraph p' Demo.k = Some true ↔ imported Demo.prog Demo.k) ∧
        is_Some (CIPass.getGraph p' Demo.k).
Proof.
  intros stale.
  exists (final (CIPass.runOnModule Demo.prog false stale)).
  assert (E : CIPass.runOnModule Demo.prog false stale
              = Done false (final (CIPass.runOnModule Demo.prog false stale)))
    by (apply Done_result; vm_compute; reflexivity).
  destruct (CIPass_runOnModule_fresh _ _ _ _ _ E) as (_ & Hhas & Hget & _).
  split_and!; [exact E | apply Hhas | apply Hget].
Defined.

Lemma CSPass_runOnModule_fresh_witness :
  let stale : CSPass.State (L := Demo.lib) :=
    {| CSPass.m_ga := Some CS.init; CSPass.errs := [MsgCheckSucceed] |} in
  ∃ p', CSPass.runOnModule Demo.prog true 7 stale = Done false p' ∧
        CSPass.hasGraph p' Demo.k = Some true.
Proof.
  intros stale.
  exists (final (CSPass.runOnModule Demo.prog true 7 stale)).
  assert (E : CSPass.runOnModule Demo.prog true 7 stale
              = Done false (final (CSPass.runOnModule Demo.prog true 7 stale)))
    by (apply Done_result; vm_compute; reflexivity).
  destruct (CSPass_runOnModule_fresh _ _ _ _ _ _
              (example_bu_keeps_functions _ _ _ _ _ _) E)
    as (_ & _ & Hhas).
  split; [exact E | apply Hhas; simpl; in_list].
Defined.
